(** * Detective-H core: hash engines and batch matching

    A shallow embedding of

    - [src/core/blake_hash/src/internal/blake3.c]  (tree hash engine),
    - [src/core/clang_module/src/internal/blake2b.c] (sequential hash engine),
    - [src/core/blake_hash/src/detective_core.c]   (digest encoding, batch matching),

    followed by the properties established about them.

    Conventions.  Unsigned machine integers are values of [Z] with the
    wrap-around of every operation written out ([wrap8], [wrap32], [wrap64]).
    C arrays are lists read with [get] and written with [upd].  A pointer that
    may be NULL is an [option].  Out-of-bounds stack accesses of the tree
    hasher are reported as a [fault].  Words stored in memory and read back as
    bytes ([memcpy] between [uint32_t] and [uint8_t] arrays) use the
    little-endian layout of the targets the library is built for.

    The only [double] values of the program are the caller's threshold and the
    similarities [1.0 - (double)distance / total_bits] of two [int]s with
    [0 <= distance <= total_bits]; they are kept as exact rationals ([Q]).
    Two such similarities compare as the doubles do, because different ratios
    of ints below 2^31 stay apart after rounding.  Signed [int] arithmetic is
    exact on digests shorter than 2^28 bytes, the range in which the
    properties about similarities are stated. *)

From Stdlib Require Import ZArith List Lia Bool QArith Permutation.
From Stdlib Require String.
From Stdlib Require Import Ascii.
Import ListNotations.
Local Open Scope Z_scope.

(** ** Machine integers and arrays *)

Definition wrap8 (x : Z) : Z := x mod 2 ^ 8.
Definition wrap32 (x : Z) : Z := x mod 2 ^ 32.
Definition wrap64 (x : Z) : Z := x mod 2 ^ 64.

(** [a[i]] for an array of integers. *)
Definition get (a : list Z) (i : nat) : Z := nth i a 0.

(** [a[i] = v]. *)
Fixpoint upd {A : Type} (a : list A) (i : nat) (v : A) : list A :=
  match a, i with
  | [], _ => []
  | _ :: t, O => v :: t
  | x :: t, S j => x :: upd t j v
  end.

(** [memcpy(&dst[off], src, n)] where [src] holds exactly the [n] bytes copied. *)
Definition memcpy_at {A : Type} (dst : list A) (off : nat) (src : list A) : list A :=
  firstn off dst ++ src ++ skipn (off + length src) dst.

(** The four byte stores [(uint8_t)w, (uint8_t)(w >> 8), ...] of a 32-bit word. *)
Definition store32 (w : Z) : list Z :=
  [wrap8 w; wrap8 (Z.shiftr w 8); wrap8 (Z.shiftr w 16); wrap8 (Z.shiftr w 24)].

(** [b0 | b1 << 8 | b2 << 16 | b3 << 24] on [uint32_t]. *)
Definition load32 (b : list Z) (i : nat) : Z :=
  Z.lor (Z.lor (Z.lor (wrap32 (get b (4 * i)))
                      (wrap32 (Z.shiftl (get b (4 * i + 1)) 8)))
               (wrap32 (Z.shiftl (get b (4 * i + 2)) 16)))
        (wrap32 (Z.shiftl (get b (4 * i + 3)) 24)).

(** The eight little-endian words read from the first 32 bytes of a buffer. *)
Definition load_cv (b : list Z) : list Z := map (load32 b) (seq 0 8).

(** The tree hasher's out-of-bounds accesses. *)
Inductive fault : Type :=
| StackUnderflow   (* read of cv_stack[(0 - 1) * 8] *)
| StackOverflow    (* store at cv_stack[54 * 8] and beyond *)
| Diverges.        (* a loop that makes no progress *)

Inductive result (A : Type) : Type :=
| Done (a : A)
| Fault (f : fault).
Arguments Done {A} a.
Arguments Fault {A} f.

Definition bind {A B : Type} (r : result A) (k : A -> result B) : result B :=
  match r with
  | Done a => k a
  | Fault f => Fault f
  end.

Notation "x <- r ;; k" := (bind r (fun x => k))
  (at level 61, r at next level, right associativity).

(** ** Tree hash engine (blake3.c) *)

Module Blake3.

Definition BLAKE3_OUT_LEN : Z := 32.
Definition BLAKE3_KEY_LEN : Z := 32.
Definition BLAKE3_BLOCK_LEN : Z := 64.
Definition BLAKE3_CHUNK_LEN : Z := 1024.
Definition BLAKE3_MAX_DEPTH : Z := 54.

Definition blake3_IV : list Z :=
  [0x6A09E667; 0xBB67AE85; 0x3C6EF372; 0xA54FF53A;
   0x510E527F; 0x9B05688C; 0x1F83D9AB; 0x5BE0CD19].

Definition blake3_msg_schedule : list (list nat) :=
  [[0; 1; 2; 3; 4; 5; 6; 7; 8; 9; 10; 11; 12; 13; 14; 15];
   [2; 6; 3; 10; 7; 0; 4; 13; 1; 11; 12; 5; 9; 14; 15; 8];
   [3; 4; 10; 12; 13; 2; 7; 14; 6; 5; 9; 0; 11; 15; 8; 1];
   [10; 7; 12; 9; 14; 3; 13; 15; 4; 0; 11; 2; 5; 8; 1; 6];
   [12; 13; 9; 11; 15; 10; 14; 8; 7; 2; 5; 3; 0; 1; 6; 4];
   [9; 14; 11; 5; 8; 12; 15; 1; 13; 3; 0; 10; 2; 6; 4; 7];
   [11; 15; 5; 0; 1; 9; 8; 6; 14; 10; 2; 12; 3; 4; 7; 13]]%nat.

Definition CHUNK_START : Z := 1.
Definition CHUNK_END : Z := 2.
Definition PARENT : Z := 4.
Definition ROOT : Z := 8.
Definition KEYED_HASH : Z := 16.
Definition DERIVE_KEY_CONTEXT : Z := 32.
Definition DERIVE_KEY_MATERIAL : Z := 64.

Definition rotr32 (w c : Z) : Z :=
  Z.lor (Z.shiftr w c) (wrap32 (Z.shiftl w (32 - c))).

Definition g (state : list Z) (a b c d : nat) (x y : Z) : list Z :=
  let state := upd state a (wrap32 (get state a + get state b + x)) in
  let state := upd state d (rotr32 (Z.lxor (get state d) (get state a)) 16) in
  let state := upd state c (wrap32 (get state c + get state d)) in
  let state := upd state b (rotr32 (Z.lxor (get state b) (get state c)) 12) in
  let state := upd state a (wrap32 (get state a + get state b + y)) in
  let state := upd state d (rotr32 (Z.lxor (get state d) (get state a)) 8) in
  let state := upd state c (wrap32 (get state c + get state d)) in
  upd state b (rotr32 (Z.lxor (get state b) (get state c)) 7).

(** [msg[blake3_msg_schedule[round][k]]] *)
Definition sched (msg : list Z) (round k : nat) : Z :=
  get msg (nth k (nth round blake3_msg_schedule []) O).

Definition round_fn (state msg : list Z) (round : nat) : list Z :=
  let state := g state 0 4 8 12 (sched msg round 0) (sched msg round 1) in
  let state := g state 1 5 9 13 (sched msg round 2) (sched msg round 3) in
  let state := g state 2 6 10 14 (sched msg round 4) (sched msg round 5) in
  let state := g state 3 7 11 15 (sched msg round 6) (sched msg round 7) in
  let state := g state 0 5 10 15 (sched msg round 8) (sched msg round 9) in
  let state := g state 1 6 11 12 (sched msg round 10) (sched msg round 11) in
  let state := g state 2 7 8 13 (sched msg round 12) (sched msg round 13) in
  g state 3 4 9 14 (sched msg round 14) (sched msg round 15).

(** The part that [blake3_compress_in_place] and [blake3_compress_xof] have in
    common: the 16-word state is set up from [cv], the IV, the counter, the
    block length and the flags, and run through seven rounds over the sixteen
    little-endian words of the block. *)
Definition compress_rounds (cv block : list Z) (block_len counter flags : Z)
  : list Z :=
  let state := firstn 8 cv ++ firstn 8 blake3_IV in
  let state := upd state 12 (wrap32 counter) in
  let state := upd state 13 (wrap32 (Z.shiftr counter 32)) in
  let state := upd state 14 (wrap32 block_len) in
  let state := upd state 15 (wrap32 flags) in
  let block_words := map (load32 block) (seq 0 16) in
  fold_left (fun st round => round_fn st block_words round) (seq 0 7) state.

(** [cv[i] = state[i] ^ state[i + 8]] for [i < 8]. *)
Definition blake3_compress_in_place (cv block : list Z)
           (block_len counter flags : Z) : list Z :=
  let state := compress_rounds cv block block_len counter flags in
  map (fun i => Z.lxor (get state i) (get state (i + 8))) (seq 0 8).

(** The output loop of [blake3_compress_xof]:
    [word = state[i] ^ state[i % 8]], stored little-endian at [out + 4 * i]. *)
Definition xof_words (state : list Z) : list Z :=
  map (fun i => Z.lxor (get state i) (get state (i mod 8))) (seq 0 16).

Definition blake3_compress_xof (cv block : list Z)
           (block_len counter flags : Z) : list Z :=
  flat_map store32 (xof_words (compress_rounds cv block block_len counter flags)).

(** *** Chunk state *)

Record blake3_chunk_state : Type := {
  cv : list Z;               (* uint32_t cv[8] *)
  chunk_counter : Z;         (* uint64_t *)
  buf : list Z;              (* uint8_t buf[BLAKE3_BLOCK_LEN] *)
  buf_len : Z;               (* uint8_t *)
  blocks_compressed : Z;     (* uint8_t *)
  flags : Z                  (* uint8_t *)
}.

Definition chunk_state_init (key : list Z) (flags : Z) : blake3_chunk_state :=
  {| cv := firstn 8 key;
     chunk_counter := 0;
     buf := repeat 0 64;
     buf_len := 0;
     blocks_compressed := 0;
     flags := flags |}.

(** [self->flags | (self->blocks_compressed == 0 ? CHUNK_START : 0)] *)
Definition start_flag (self : blake3_chunk_state) : Z :=
  Z.lor (flags self) (if blocks_compressed self =? 0 then CHUNK_START else 0).

(** The [if (self->buf_len == BLAKE3_BLOCK_LEN)] statement of
    [chunk_state_update]: a full buffer is compressed into [cv]; the buffer
    keeps its bytes, only [buf_len] is reset. *)
Definition chunk_flush (self : blake3_chunk_state) : blake3_chunk_state :=
  if buf_len self =? BLAKE3_BLOCK_LEN then
    {| cv := blake3_compress_in_place (cv self) (buf self) BLAKE3_BLOCK_LEN
                                      (chunk_counter self) (wrap8 (start_flag self));
       chunk_counter := chunk_counter self;
       buf := buf self;
       buf_len := 0;
       blocks_compressed := wrap8 (blocks_compressed self + 1);
       flags := flags self |}
  else self.

(** One iteration of the [while (input_len > 0)] loop of [chunk_state_update]:
    the new state and the input that is left. *)
Definition chunk_state_update_body (self : blake3_chunk_state) (input : list Z)
  : blake3_chunk_state * list Z :=
  let self := chunk_flush self in
  let input_len := Z.of_nat (length input) in
  let want := wrap64 (BLAKE3_BLOCK_LEN - buf_len self) in
  let take := if input_len <? want then input_len else want in
  ({| cv := cv self;
      chunk_counter := chunk_counter self;
      buf := memcpy_at (buf self) (Z.to_nat (buf_len self))
                       (firstn (Z.to_nat take) input);
      buf_len := wrap8 (buf_len self + take);
      blocks_compressed := blocks_compressed self;
      flags := flags self |},
   skipn (Z.to_nat take) input).

Fixpoint chunk_state_update_loop (fuel : nat) (self : blake3_chunk_state)
         (input : list Z) : result blake3_chunk_state :=
  match input with
  | [] => Done self
  | _ :: _ =>
      match fuel with
      | O => Fault Diverges
      | S fuel =>
          let '(self, input) := chunk_state_update_body self input in
          chunk_state_update_loop fuel self input
      end
  end.

(** Every iteration takes at least one byte, so [length input] iterations
    are enough (see [chunk_state_update_total]). *)
Definition chunk_state_update (self : blake3_chunk_state) (input : list Z)
  : result blake3_chunk_state :=
  chunk_state_update_loop (length input) self input.

Definition chunk_state_output (self : blake3_chunk_state) : list Z :=
  let block_flags := wrap8 (Z.lor (start_flag self) CHUNK_END) in
  blake3_compress_xof (cv self) (buf self) (buf_len self) (chunk_counter self)
                      block_flags.

Definition parent_output (block key : list Z) (flags : Z) : list Z :=
  blake3_compress_xof key block BLAKE3_BLOCK_LEN 0 (wrap8 (Z.lor flags PARENT)).

(** [parent_cv] reads the eight little-endian words at the start of what
    [parent_output] stored.  (The source hands [parent_output] the 32-byte
    local [cv_bytes] although 64 bytes are stored through it; the words read
    back are the first eight in either case.) *)
Definition parent_cv (block key : list Z) (flags : Z) : list Z :=
  load_cv (parent_output block key flags).

(** *** Hasher *)

(** [cv_stack] holds the live entries [cv_stack[0 .. 8 * cv_stack_len)], one
    8-word chaining value per element, the most recently pushed one first. *)
Record blake3_hasher : Type := {
  key : list Z;                  (* uint32_t key[8] *)
  chunk : blake3_chunk_state;
  cv_stack : list (list Z)       (* cv_stack_len, cv_stack[BLAKE3_MAX_DEPTH * 8] *)
}.

Definition cv_stack_len (self : blake3_hasher) : Z :=
  Z.of_nat (length (cv_stack self)).

(** The two children of a parent node laid out as a 64-byte block. *)
Definition parent_block (left right : list Z) : list Z :=
  flat_map store32 (firstn 8 left) ++ flat_map store32 (firstn 8 right).

(** The [while (total_chunks & 1)] loop of [add_chunk_cv].  With
    [cv_stack_len == 0] the first [memcpy] reads [cv_stack[(0 - 1) * 8]],
    which lies outside the array. *)
Fixpoint add_chunk_cv_loop (fuel : nat) (key : list Z) (flags : Z)
         (stack : list (list Z)) (new_cv : list Z) (total_chunks : Z)
  : result (list (list Z) * list Z) :=
  if Z.land total_chunks 1 =? 0 then Done (stack, new_cv)
  else
    match fuel with
    | O => Fault Diverges
    | S fuel =>
        match stack with
        | [] => Fault StackUnderflow
        | top :: stack =>
            add_chunk_cv_loop fuel key flags stack
                              (parent_cv (parent_block top new_cv) key flags)
                              (Z.shiftr total_chunks 1)
        end
    end.

(** [total_chunks] is a [uint64_t], which 64 shifts exhaust. *)
Definition add_chunk_cv (self : blake3_hasher) (new_cv : list Z)
           (total_chunks : Z) : result blake3_hasher :=
  r <- add_chunk_cv_loop 64 (key self) (flags (chunk self)) (cv_stack self)
                         new_cv total_chunks ;;
  let '(stack, new_cv) := r in
  if Z.of_nat (length stack) <? BLAKE3_MAX_DEPTH then
    Done {| key := key self; chunk := chunk self;
            cv_stack := firstn 8 new_cv :: stack |}
  else Fault StackOverflow.

Definition blake3_hasher_init : blake3_hasher :=
  {| key := blake3_IV;
     chunk := chunk_state_init blake3_IV 0;
     cv_stack := [] |}.

Definition blake3_hasher_init_keyed (key : list Z) : blake3_hasher :=
  let key := load_cv key in
  {| key := key;
     chunk := chunk_state_init key KEYED_HASH;
     cv_stack := [] |}.

Definition set_chunk_counter (c : blake3_chunk_state) (n : Z)
  : blake3_chunk_state :=
  {| cv := cv c; chunk_counter := n; buf := buf c; buf_len := buf_len c;
     blocks_compressed := blocks_compressed c; flags := flags c |}.

Definition set_chunk_flags (c : blake3_chunk_state) (f : Z)
  : blake3_chunk_state :=
  {| cv := cv c; chunk_counter := chunk_counter c; buf := buf c;
     buf_len := buf_len c; blocks_compressed := blocks_compressed c;
     flags := f |}.

Definition set_chunk (self : blake3_hasher) (c : blake3_chunk_state)
  : blake3_hasher :=
  {| key := key self; chunk := c; cv_stack := cv_stack self |}.

(** [buf_len == BLAKE3_BLOCK_LEN &&
     blocks_compressed == BLAKE3_CHUNK_LEN / BLAKE3_BLOCK_LEN - 1] *)
Definition chunk_is_full (c : blake3_chunk_state) : bool :=
  (buf_len c =? BLAKE3_BLOCK_LEN)
  && (blocks_compressed c =? BLAKE3_CHUNK_LEN / BLAKE3_BLOCK_LEN - 1).

(** The [if] statement at the head of the loop of [blake3_hasher_update]: a
    full chunk is closed, its chaining value goes to [add_chunk_cv] with
    [chunk_counter + 1], and the chunk state is re-initialised
    ([chunk_state_init] sets the counter to 0, then it is incremented). *)
Definition finish_chunk (self : blake3_hasher) : result blake3_hasher :=
  if chunk_is_full (chunk self) then
    let chunk_cv := chunk_state_output (chunk self) in
    let chunk_cv_words := load_cv chunk_cv in
    self <- add_chunk_cv self chunk_cv_words
                         (wrap64 (chunk_counter (chunk self) + 1)) ;;
    let c := chunk_state_init (key self) (flags (chunk self)) in
    Done (set_chunk self (set_chunk_counter c (wrap64 (chunk_counter c + 1))))
  else Done self.

(** One iteration of the loop of [blake3_hasher_update]. *)
Definition blake3_hasher_update_body (self : blake3_hasher) (input : list Z)
  : result (blake3_hasher * list Z) :=
  self <- finish_chunk self ;;
  let input_len := Z.of_nat (length input) in
  let want := wrap64 (BLAKE3_CHUNK_LEN
                      - (blocks_compressed (chunk self) * BLAKE3_BLOCK_LEN
                         + buf_len (chunk self))) in
  let take := if input_len <? want then input_len else want in
  c <- chunk_state_update (chunk self) (firstn (Z.to_nat take) input) ;;
  Done (set_chunk self c, skipn (Z.to_nat take) input).

Fixpoint blake3_hasher_update_loop (fuel : nat) (self : blake3_hasher)
         (input : list Z) : result blake3_hasher :=
  match input with
  | [] => Done self
  | _ :: _ =>
      match fuel with
      | O => Fault Diverges
      | S fuel =>
          r <- blake3_hasher_update_body self input ;;
          let '(self, input) := r in
          blake3_hasher_update_loop fuel self input
      end
  end.

Definition blake3_hasher_update (self : blake3_hasher) (input : list Z)
  : result blake3_hasher :=
  blake3_hasher_update_loop (length input) self input.

(** The root compression of [blake3_hasher_finalize] passes
    [(uint8_t* )parent_nodes] as the 64-byte block: its first 32 bytes are the
    eight words of [parent_nodes], the other 32 are whatever follows that
    array in memory at the time of the call, [oob counter]. *)
Definition root_output (parent_nodes : list Z) (flags : Z)
           (oob : Z -> list Z) (counter : Z) : list Z :=
  blake3_compress_xof parent_nodes
                      (flat_map store32 (firstn 8 parent_nodes)
                       ++ firstn 32 (oob counter))
                      32 (wrap64 counter) (wrap8 (Z.lor flags ROOT)).

(** The loop [for (output_block_counter = 1; out_len > 64; ...)]: the bytes
    stored at [out + 64 * output_block_counter], block after block. *)
Fixpoint output_blocks (fuel : nat) (parent_nodes : list Z) (flags : Z)
         (oob : Z -> list Z) (output_block_counter out_len : Z) : list Z :=
  match fuel with
  | O => []
  | S fuel =>
      if 64 <? out_len then
        let wide_buf := root_output parent_nodes flags oob output_block_counter in
        let this_block_len := if 64 <? out_len then 64 else out_len in
        firstn (Z.to_nat this_block_len) wide_buf
        ++ output_blocks fuel parent_nodes flags oob
                         (output_block_counter + 1) (out_len - this_block_len)
      else []
  end.

(** The root chaining value: the chunk output folded with the stack entries
    from the most recent to the oldest. *)
Definition root_node (self : blake3_hasher) : list Z :=
  let chunk_cv_words := load_cv (chunk_state_output (chunk self)) in
  fold_left (fun parent_nodes entry =>
               parent_cv (parent_block entry parent_nodes) (key self)
                         (flags (chunk self)))
            (cv_stack self) chunk_cv_words.

(** [blake3_hasher_finalize]: the bytes stored through [out], in address
    order starting at [out]. *)
Definition blake3_hasher_finalize (self : blake3_hasher) (oob : Z -> list Z)
           (out_len : Z) : list Z :=
  let parent_nodes := root_node self in
  let wide_buf := root_output parent_nodes (flags (chunk self)) oob 0 in
  let head := firstn (Z.to_nat (if out_len <? 64 then out_len else 64)) wide_buf in
  if 64 <? out_len then
    head ++ output_blocks (Z.to_nat out_len) parent_nodes (flags (chunk self))
                          oob 1 out_len
  else head.

Definition blake3 (input : list Z) (oob : Z -> list Z) (out_len : Z)
  : result (list Z) :=
  hasher <- blake3_hasher_update blake3_hasher_init input ;;
  Done (blake3_hasher_finalize hasher oob out_len).

(** [blake3_hasher_init_derive_key]; [context] is the context string's bytes. *)
Definition blake3_hasher_init_derive_key (context : list Z) (oob : Z -> list Z)
  : result blake3_hasher :=
  let context_hasher :=
    set_chunk blake3_hasher_init
              (set_chunk_flags (chunk blake3_hasher_init)
                               (wrap8 (Z.lor (flags (chunk blake3_hasher_init))
                                             DERIVE_KEY_CONTEXT))) in
  context_hasher <- blake3_hasher_update context_hasher context ;;
  let context_key := blake3_hasher_finalize context_hasher oob BLAKE3_KEY_LEN in
  let self := blake3_hasher_init_keyed context_key in
  Done (set_chunk self
          (set_chunk_flags (chunk self)
                           (wrap8 (Z.lor (flags (chunk self)) DERIVE_KEY_MATERIAL)))).

End Blake3.

(** ** Digest encoding: what [snprintf(dst, 3, "%02x", byte)] stores *)

Definition hex_digit (n : Z) : Ascii.ascii :=
  nth (Z.to_nat n)
      ["0"; "1"; "2"; "3"; "4"; "5"; "6"; "7";
       "8"; "9"; "a"; "b"; "c"; "d"; "e"; "f"]%char "0"%char.

Definition hex_byte (b : Z) : list Ascii.ascii :=
  [hex_digit (wrap8 b / 16); hex_digit (wrap8 b mod 16)].

(** ** Sequential hash engine (blake2b.c, hash.c) *)

Module Blake2b.

Definition blake2b_IV : list Z :=
  [0x6a09e667f3bcc908; 0xbb67ae8584caa73b;
   0x3c6ef372fe94f82b; 0xa54ff53a5f1d36f1;
   0x510e527fade682d1; 0x9b05688c2b3e6c1f;
   0x1f83d9abfb41bd6b; 0x5be0cd19137e2179].

Definition blake2b_sigma : list (list nat) :=
  [[0; 1; 2; 3; 4; 5; 6; 7; 8; 9; 10; 11; 12; 13; 14; 15];
   [14; 10; 4; 8; 9; 15; 13; 6; 1; 12; 0; 2; 11; 7; 5; 3];
   [11; 8; 12; 0; 5; 2; 15; 13; 10; 14; 3; 6; 7; 1; 9; 4];
   [7; 9; 3; 1; 13; 12; 11; 14; 2; 6; 5; 10; 4; 0; 15; 8];
   [9; 0; 5; 7; 2; 4; 10; 15; 14; 1; 11; 12; 6; 8; 3; 13];
   [2; 12; 6; 10; 0; 11; 8; 3; 4; 13; 7; 5; 15; 14; 1; 9];
   [12; 5; 1; 15; 14; 13; 4; 10; 0; 7; 6; 3; 9; 2; 8; 11];
   [13; 11; 7; 14; 12; 1; 3; 9; 5; 0; 15; 4; 8; 6; 2; 10];
   [6; 15; 14; 9; 11; 3; 0; 8; 12; 2; 13; 7; 1; 4; 10; 5];
   [10; 2; 8; 4; 7; 6; 1; 5; 15; 11; 9; 14; 3; 12; 13; 0];
   [0; 1; 2; 3; 4; 5; 6; 7; 8; 9; 10; 11; 12; 13; 14; 15];
   [14; 10; 4; 8; 9; 15; 13; 6; 1; 12; 0; 2; 11; 7; 5; 3]]%nat.

Definition store64 (w : Z) : list Z :=
  map (fun k => wrap8 (Z.shiftr w (8 * Z.of_nat k))) (seq 0 8).

Definition load64 (block : list Z) (i : nat) : Z :=
  fold_left (fun acc k =>
               Z.lor acc (wrap64 (Z.shiftl (get block (8 * i + k))
                                           (8 * Z.of_nat k))))
            (seq 0 8) 0.

Definition rotr64 (w c : Z) : Z :=
  Z.lor (Z.shiftr w c) (wrap64 (Z.shiftl w (64 - c))).

(** The macro [G(r,i,a,b,c,d)], applied to [v[a], v[b], v[c], v[d]]. *)
Definition G (m v : list Z) (r i a b c d : nat) : list Z :=
  let sigma k := get m (nth k (nth r blake2b_sigma []) O) in
  let v := upd v a (wrap64 (get v a + get v b + sigma (2 * i + 0)%nat)) in
  let v := upd v d (rotr64 (Z.lxor (get v d) (get v a)) 32) in
  let v := upd v c (wrap64 (get v c + get v d)) in
  let v := upd v b (rotr64 (Z.lxor (get v b) (get v c)) 24) in
  let v := upd v a (wrap64 (get v a + get v b + sigma (2 * i + 1)%nat)) in
  let v := upd v d (rotr64 (Z.lxor (get v d) (get v a)) 16) in
  let v := upd v c (wrap64 (get v c + get v d)) in
  upd v b (rotr64 (Z.lxor (get v b) (get v c)) 63).

Record blake2b_state : Type := {
  h : list Z;        (* uint64_t h[8] *)
  t : list Z;        (* uint64_t t[2] *)
  f : list Z;        (* uint64_t f[2] *)
  buf : list Z;      (* uint8_t buf[128] *)
  buflen : Z;        (* size_t *)
  outlen : Z;        (* size_t *)
  last_node : Z      (* uint8_t *)
}.

Definition set_h (st : blake2b_state) (x : list Z) : blake2b_state :=
  {| h := x; t := t st; f := f st; buf := buf st; buflen := buflen st;
     outlen := outlen st; last_node := last_node st |}.
Definition set_t (st : blake2b_state) (x : list Z) : blake2b_state :=
  {| h := h st; t := x; f := f st; buf := buf st; buflen := buflen st;
     outlen := outlen st; last_node := last_node st |}.
Definition set_f (st : blake2b_state) (x : list Z) : blake2b_state :=
  {| h := h st; t := t st; f := x; buf := buf st; buflen := buflen st;
     outlen := outlen st; last_node := last_node st |}.
Definition set_buf (st : blake2b_state) (x : list Z) : blake2b_state :=
  {| h := h st; t := t st; f := f st; buf := x; buflen := buflen st;
     outlen := outlen st; last_node := last_node st |}.
Definition set_buflen (st : blake2b_state) (x : Z) : blake2b_state :=
  {| h := h st; t := t st; f := f st; buf := buf st; buflen := x;
     outlen := outlen st; last_node := last_node st |}.

Definition blake2b_round (m v : list Z) (i : nat) : list Z :=
  let v := G m v i 0 0 4 8 12 in
  let v := G m v i 1 1 5 9 13 in
  let v := G m v i 2 2 6 10 14 in
  let v := G m v i 3 3 7 11 15 in
  let v := G m v i 4 0 5 10 15 in
  let v := G m v i 5 1 6 11 12 in
  let v := G m v i 6 2 7 8 13 in
  G m v i 7 3 4 9 14.

Definition blake2b_compress (st : blake2b_state) (block : list Z)
  : blake2b_state :=
  let m := map (load64 block) (seq 0 16) in
  let v := firstn 8 (h st)
           ++ [get blake2b_IV 0; get blake2b_IV 1;
               get blake2b_IV 2; get blake2b_IV 3;
               Z.lxor (get blake2b_IV 4) (get (t st) 0);
               Z.lxor (get blake2b_IV 5) (get (t st) 1);
               Z.lxor (get blake2b_IV 6) (get (f st) 0);
               Z.lxor (get blake2b_IV 7) (get (f st) 1)] in
  let v := fold_left (blake2b_round m) (seq 0 12) v in
  set_h st (map (fun i => Z.lxor (Z.lxor (get (h st) i) (get v i))
                                (get v (i + 8)))
               (seq 0 8)).

(** [None] is the return value [-1]. *)
Definition blake2b_init (outlen : Z) : option blake2b_state :=
  if (outlen =? 0) || (64 <? outlen) then None
  else Some {| h := blake2b_IV; t := [0; 0]; f := [0; 0];
               buf := repeat 0 128; buflen := 0;
               outlen := outlen; last_node := 0 |}.

(** [S->t[0] += n; if (S->t[0] < n) S->t[1]++;] *)
Definition add_counter (st : blake2b_state) (n : Z) : blake2b_state :=
  let st := set_t st (upd (t st) 0 (wrap64 (get (t st) 0 + n))) in
  if get (t st) 0 <? n then set_t st (upd (t st) 1 (wrap64 (get (t st) 1 + 1)))
  else st.

(** The loop [while (inlen > 128)] of [blake2b_update]. *)
Fixpoint update_blocks (fuel : nat) (st : blake2b_state) (input : list Z)
  : blake2b_state * list Z :=
  match fuel with
  | O => (st, input)
  | S fuel =>
      if 128 <? Z.of_nat (length input) then
        let st := add_counter st 128 in
        let st := blake2b_compress st (firstn 128 input) in
        update_blocks fuel st (skipn 128 input)
      else (st, input)
  end.

(** [blake2b_update]; the source always returns 0. *)
Definition blake2b_update (st : blake2b_state) (input : list Z)
  : blake2b_state :=
  let inlen := Z.of_nat (length input) in
  let '(st, input) :=
    if 128 <? wrap64 (buflen st + inlen) then
      let fill := wrap64 (128 - buflen st) in
      let st := set_buf st (memcpy_at (buf st) (Z.to_nat (buflen st))
                                    (firstn (Z.to_nat fill) input)) in
      let st := add_counter st 128 in
      let st := blake2b_compress st (buf st) in
      let input := skipn (Z.to_nat fill) input in
      let st := set_buflen st 0 in
      update_blocks (length input) st input
    else (st, input) in
  let inlen := Z.of_nat (length input) in
  if 0 <? inlen then
    let st := set_buf st (memcpy_at (buf st) (Z.to_nat (buflen st)) input) in
    set_buflen st (wrap64 (buflen st + inlen))
  else st.

(** The body of [if (S->buflen > 0)] in [blake2b_final]: zero padding,
    counter, finalization flag, compression of the buffer. *)
Definition final_block (st : blake2b_state) : blake2b_state :=
  let st := if buflen st <? 128 then
             set_buf st (firstn (Z.to_nat (buflen st)) (buf st)
                        ++ repeat 0 (Z.to_nat (128 - buflen st)))
           else st in
  let st := add_counter st (buflen st) in
  let st := set_f st (upd (f st) 0 (wrap64 (-1))) in
  blake2b_compress st (buf st).

(** The bytes copied to [out]: the chaining words stored little-endian,
    cut to [S->outlen] bytes. *)
Definition serialize (st : blake2b_state) : list Z :=
  firstn (Z.to_nat (outlen st)) (flat_map store64 (firstn 8 (h st))).

(** [blake2b_final]: [None] is the return value [-1]; otherwise the state
    left behind and the bytes copied to [out]. *)
Definition blake2b_final (st : blake2b_state) (outlen' : Z)
  : option (blake2b_state * list Z) :=
  if negb (outlen st =? outlen') then None
  else
    let st := if 0 <? buflen st then final_block st else st in
    Some (st, serialize st).

(** [hash] of hash.c: the BLAKE2b-512 digest of a string as 128 hex
    characters; [None] is the NULL return. [input] holds the bytes before the
    terminating NUL. *)
Definition hash (input : list Z) (malloc_ok : bool)
  : option String.string :=
  if negb malloc_ok then None
  else
    match blake2b_init 64 with
    | None => None
    | Some st =>
        let st := blake2b_update st input in
        match blake2b_final st 64 with
        | None => None
        | Some (_, digest) =>
            Some (String.string_of_list_ascii
                    (flat_map (fun i => hex_byte (get digest i)) (seq 0 64)))
        end
    end.

End Blake2b.

(** ** Digest encoding and batch matching (detective_core.c) *)

Module Core.

Definition DETECTIVE_HASH_LEN : Z := 32.
Definition DETECTIVE_HEX_LEN : Z := DETECTIVE_HASH_LEN * 2 + 1.

Record SimilarityResult : Type := {
  index : Z;          (* int *)
  similarity : Q      (* double *)
}.

(** The characters stored in [hex_out] before the terminating NUL. *)
Definition bytes_to_hex (bytes : list Z) (len : Z) : String.string :=
  String.string_of_list_ascii
    (flat_map (fun i => hex_byte (get bytes i)) (seq 0 (Z.to_nat len))).

Fixpoint count_bits_loop (fuel : nat) (byte count : Z) : Z :=
  match fuel with
  | O => count
  | S fuel =>
      if byte =? 0 then count
      else count_bits_loop fuel (wrap8 (Z.shiftr byte 1)) (count + Z.land byte 1)
  end.

(** [byte] is a [uint8_t]: eight shifts clear it. *)
Definition count_bits (byte : Z) : Z := count_bits_loop 8 (wrap8 byte) 0.

(** [input] is the NUL-terminated string's bytes ([None] for NULL);
    [malloc_ok] tells whether the allocation of the result succeeds;
    [oob] is as in [Blake3.root_output]. *)
Definition blake3_hash_string (input : option (list Z)) (malloc_ok : bool)
           (oob : Z -> list Z) : result (option String.string) :=
  match input with
  | None => Done None
  | Some input =>
      hash <- Blake3.blake3 input oob DETECTIVE_HASH_LEN ;;
      if negb malloc_ok then Done None
      else Done (Some (bytes_to_hex hash DETECTIVE_HASH_LEN))
  end.


(** 0 = equal, 1 = different; [strcmp(hash1, hash2) == 0] is string equality. *)
Definition hash_compare (hash1 hash2 : option String.string) : Z :=
  match hash1, hash2 with
  | Some hash1, Some hash2 => if String.eqb hash1 hash2 then 0 else 1
  | _, _ => 1
  end.

Definition hash_hamming_distance (hash1 hash2 : option (list Z)) (len : Z) : Z :=
  match hash1, hash2 with
  | Some hash1, Some hash2 =>
      fold_left (fun distance i =>
                   let diff := wrap8 (Z.lxor (get hash1 i) (get hash2 i)) in
                   distance + count_bits diff)
                (seq 0 (Z.to_nat len)) 0
  | _, _ => -1
  end.

(** What a batch operation hands back: the returned array ([None] for NULL)
    and the value left in the out-parameter ([None] when that pointer is NULL
    and nothing is stored). *)
Definition batch_result (A : Type) : Type := (option (list A) * option Z)%type.

(** The body of the loop [for (i = 0; i < db_count; i++)] of
    [batch_compare_hash]; [temp_matches[0 .. count)] is the list built so
    far. *)
Definition compare_scan_body (target_hash : option String.string)
           (db_hashes : list (option String.string))
           (temp_matches : list Z) (i : nat) : list Z :=
  match nth i db_hashes None with
  | Some entry =>
      if hash_compare target_hash (Some entry) =? 0
      then temp_matches ++ [Z.of_nat i]
      else temp_matches
  | None => temp_matches
  end.

Definition compare_scan (target_hash : option String.string)
           (db_hashes : list (option String.string)) (db_count : Z) : list Z :=
  fold_left (compare_scan_body target_hash db_hashes)
            (seq 0 (Z.to_nat db_count)) [].

(** [match_count] tells whether the out-pointer is non-NULL.  A failing
    [realloc] returns the same array contents, so it is not distinguished. *)
Definition batch_compare_hash (target_hash : option String.string)
           (db_hashes : option (list (option String.string))) (db_count : Z)
           (match_count : bool) (malloc_ok : bool) : batch_result Z :=
  match target_hash, db_hashes with
  | Some target, Some db =>
      if (db_count <=? 0) || negb match_count then
        (None, if match_count then Some 0 else None)
      else if negb malloc_ok then (None, Some 0)
      else
        let temp_matches := compare_scan (Some target) db db_count in
        let count := Z.of_nat (length temp_matches) in
        if count =? 0 then (None, Some count)
        else (Some temp_matches, Some count)
  | _, _ => (None, if match_count then Some 0 else None)
  end.

(** [(int)(hash_len * 8)] *)
Definition to_int (x : Z) : Z := (x + 2 ^ 31) mod 2 ^ 32 - 2 ^ 31.

(** [1.0 - ((double)distance / total_bits)] *)
Definition similarity_of (distance total_bits : Z) : Q :=
  (1 - inject_Z distance / inject_Z total_bits)%Q.

(** [a > b] on similarities. *)
Definition Qgtb (a b : Q) : bool := negb (Qle_bool a b).

(** The body of the scan loop of [batch_similarity_search];
    [temp[0 .. count)] is the list built so far. *)
Definition similarity_scan_body (target_hash : list Z) (hash_len : Z)
           (db_hashes : list (option (list Z))) (threshold : Q) (total_bits : Z)
           (temp : list SimilarityResult) (i : nat) : list SimilarityResult :=
  match nth i db_hashes None with
  | None => temp
  | Some entry =>
      let distance :=
        hash_hamming_distance (Some target_hash) (Some entry) hash_len in
      if distance <? 0 then temp
      else
        let similarity := similarity_of distance total_bits in
        if Qle_bool threshold similarity then
          temp ++ [{| index := Z.of_nat i; similarity := similarity |}]
        else temp
  end.

Definition similarity_scan (target_hash : list Z) (hash_len : Z)
           (db_hashes : list (option (list Z))) (db_count : Z) (threshold : Q)
  : list SimilarityResult :=
  let total_bits := to_int (wrap64 (hash_len * 8)) in
  fold_left (similarity_scan_body target_hash hash_len db_hashes threshold
                                  total_bits)
            (seq 0 (Z.to_nat db_count)) [].

Definition no_result : SimilarityResult := {| index := 0; similarity := 0 |}.

(** [temp[i]] *)
Definition entry (temp : list SimilarityResult) (i : nat) : SimilarityResult :=
  nth i temp no_result.

(** The inner loop [for (j = i + 1; j < count; j++)]: the final [max_idx]. *)
Definition find_max (temp : list SimilarityResult) (i count : nat) : nat :=
  fold_left (fun max_idx j =>
               if Qgtb (similarity (entry temp j)) (similarity (entry temp max_idx))
               then j else max_idx)
            (seq (i + 1) (count - (i + 1))) i.

(** [if (max_idx != i) { swap temp[i] and temp[max_idx] }] *)
Definition swap_entries (temp : list SimilarityResult) (i max_idx : nat)
  : list SimilarityResult :=
  if Nat.eqb max_idx i then temp
  else
    let swap := entry temp i in
    let temp := upd temp i (entry temp max_idx) in
    upd temp max_idx swap.

(** The selection sort [for (i = 0; i < count - 1; i++)]. *)
Definition selection_sort (temp : list SimilarityResult) (count : nat)
  : list SimilarityResult :=
  fold_left (fun temp i => swap_entries temp i (find_max temp i count))
            (seq 0 (count - 1)) temp.

Definition batch_similarity_search (target_hash : option (list Z)) (hash_len : Z)
           (db_hashes : option (list (option (list Z)))) (db_count : Z)
           (threshold : Q) (result_count : bool) (malloc_ok : bool)
  : batch_result SimilarityResult :=
  match target_hash, db_hashes with
  | Some target, Some db =>
      if (db_count <=? 0) || negb result_count || (hash_len =? 0) then
        (None, if result_count then Some 0 else None)
      else if negb malloc_ok then (None, Some 0)
      else
        let temp := similarity_scan target hash_len db db_count threshold in
        let count := length temp in
        if Nat.eqb count 0 then (None, Some (Z.of_nat count))
        else (Some (selection_sort temp count), Some (Z.of_nat count))
  | _, _ => (None, if result_count then Some 0 else None)
  end.

(** The loop [for (i = 0; i < count; i++)] of [batch_hash_strings], from
    index [i] with [n] entries to go; [results[0 .. i)] is the list built so
    far.  A NULL from [blake3_hash_string] frees what was built and makes the
    whole call return NULL.  [malloc_item i] and [oob i] are the allocation
    outcome and the memory read past [parent_nodes] in the call for entry
    [i]. *)
Fixpoint batch_hash_loop (strings : list (option (list Z)))
         (malloc_item : nat -> bool) (oob : nat -> Z -> list Z)
         (i n : nat) (results : list String.string)
  : result (option (list String.string)) :=
  match n with
  | O => Done (Some results)
  | S n =>
      r <- blake3_hash_string (nth i strings None) (malloc_item i) (oob i) ;;
      match r with
      | None => Done None
      | Some hash =>
          batch_hash_loop strings malloc_item oob (S i) n (results ++ [hash])
      end
  end.

(** [malloc_array] tells whether the allocation of the result array
    succeeds. *)
Definition batch_hash_strings (strings : option (list (option (list Z))))
           (count : Z) (malloc_array : bool) (malloc_item : nat -> bool)
           (oob : nat -> Z -> list Z)
  : result (option (list String.string)) :=
  match strings with
  | None => Done None
  | Some strings =>
      if count <=? 0 then Done None
      else if negb malloc_array then Done None
      else batch_hash_loop strings malloc_item oob 0 (Z.to_nat count) []
  end.

End Core.

(** ** Definitions used to state the properties *)

(** Running a fallible step over a list, left to right. *)
Definition foldM {A B : Type} (f : A -> B -> result A) (l : list B) (a : A)
  : result A :=
  fold_left (fun r b => bind r (fun a => f a b)) l (Done a).

Module Blake3Spec.
Import Blake3.

(** What [chunk_state_update] does with a single byte. *)
Definition chunk_absorb (c : blake3_chunk_state) (b : Z) : blake3_chunk_state :=
  let c := chunk_flush c in
  {| cv := cv c;
     chunk_counter := chunk_counter c;
     buf := upd (buf c) (Z.to_nat (buf_len c)) b;
     buf_len := buf_len c + 1;
     blocks_compressed := blocks_compressed c;
     flags := flags c |}.

(** What [blake3_hasher_update] does with a single byte. *)
Definition hasher_absorb (self : blake3_hasher) (b : Z) : result blake3_hasher :=
  self <- finish_chunk self ;;
  Done (set_chunk self (chunk_absorb (chunk self) b)).

(** The buffer of a chunk state is a 64-byte array filled up to [buf_len]. *)
Definition chunk_ok (c : blake3_chunk_state) : Prop :=
  0 <= buf_len c <= 64 /\ length (buf c) = 64%nat.

(** Bytes of the current chunk taken in so far. *)
Definition chunk_used (c : blake3_chunk_state) : Z :=
  blocks_compressed c * 64 + buf_len c.

Definition hasher_ok (self : blake3_hasher) : Prop :=
  chunk_ok (chunk self) /\ 0 <= blocks_compressed (chunk self) <= 15.



End Blake3Spec.

Module CoreSpec.
Import Core.

(** The failure signal of the batch operations: NULL is returned and 0 is
    left in the out-parameter (when there is one). *)
Definition no_results {A : Type} (count_ptr : bool) : batch_result A :=
  (None, if count_ptr then Some 0 else None).

(** A collection handed over as [(db_hashes, db_count)] is empty. *)
Definition empty_collection {A : Type} (db_hashes : option (list A))
           (db_count : Z) : Prop :=
  db_hashes = None \/ db_count <= 0.

(** One of the first [db_count] candidates is the empty text. *)
Definition has_empty_text (db_hashes : list (option String.string))
           (db_count : Z) : bool :=
  existsb (fun i => match nth i db_hashes None with
                    | Some e => String.eqb e String.EmptyString
                    | None => false
                    end)
          (seq 0 (Z.to_nat db_count)).

(** Scores do not increase along the result. *)
Definition descending (l : list SimilarityResult) : Prop :=
  forall a b, (a < b < length l)%nat ->
              (similarity (entry l b) <= similarity (entry l a))%Q.

(** Entries of equal score appear in the order of their candidate indices. *)
Definition ties_keep_index_order (l : list SimilarityResult) : Prop :=
  forall a b, (a < b < length l)%nat ->
              (similarity (entry l a) == similarity (entry l b))%Q ->
              index (entry l a) < index (entry l b).

(** What the scan of [batch_compare_hash] appends for candidate [i]. *)
Definition compare_hit (target_hash : option String.string)
           (db_hashes : list (option String.string)) (i : nat) : list Z :=
  match nth i db_hashes None with
  | Some e => if hash_compare target_hash (Some e) =? 0 then [Z.of_nat i] else []
  | None => []
  end.

(** What the scan of [batch_similarity_search] appends for candidate [i]. *)
Definition similarity_hit (target_hash : list Z) (hash_len : Z)
           (db_hashes : list (option (list Z))) (threshold : Q) (i : nat)
  : list SimilarityResult :=
  match nth i db_hashes None with
  | None => []
  | Some e =>
      let distance := hash_hamming_distance (Some target_hash) (Some e) hash_len in
      if distance <? 0 then []
      else
        let s := similarity_of distance (to_int (wrap64 (hash_len * 8))) in
        if Qle_bool threshold s then [{| index := Z.of_nat i; similarity := s |}]
        else []
  end.

End CoreSpec.

(** Concrete inputs and digest texts used in the statements. *)
Module Reference.
Import String.
Local Open Scope string_scope.

(** The bytes of "abc". *)
Definition abc : list Z := [97; 98; 99].

(** The published BLAKE2b-512 and BLAKE3 digests of the empty input and of
    "abc". *)

Definition blake2b_512_empty : String.string :=
  "786a02f742015903c6c6fd852552d272912f4740e15847618a86e217f71f5419d25e1031afee585313896444934eb04b903a685b1448b755d56f701afe9be2ce".

Definition blake2b_512_abc : String.string :=
  "ba80a53f981c4d0d6a2797b69f12f6e94c212f14685ac4b74b12bb6fdbffa2d17d87c5392aab792dc252d5de4533cc9518d38aa8dbf1925ab92386edd4009923".

Definition blake3_empty : String.string :=
  "af1349b9f5f9a1a6a0404dea36dcc9499bcb25c9adc112b7cc9a93cae41f3262".

Definition blake3_abc : String.string :=
  "6437b3ac38465133ffb63b75273a8db548c558465d79db03fd359c6cd5bd9d85".

(** What [hash] of hash.c returns for the empty input and for "abc". *)
Definition hash_of_empty : String.string :=
  "08c9bcf367e6096a3ba7ca8485ae67bb2bf894fe72f36e3cf1361d5f3af54fa5d182e6ad7f520e511f6c3e2b8c68059b6bbd41fbabd9831f79217e1319cde05b".

Definition hash_of_abc : String.string :=
  "d3284c32b0abb2e548df19c4f7740c20f0771d6bcaf176482dd645e9133a9544210b29bb41a2af4bfbe5a5fabf854b997c8f40aaf818c0411a53d63aff481cc4".

(** The usage example in detective_core.h: [blake3_hash_string("hello world")]
    is documented to print a text that starts with "d74981". *)
Definition hello_world : list Z :=
  [104; 101; 108; 108; 111; 32; 119; 111; 114; 108; 100].

Definition documented_prefix : String.string := "d74981".

(** A non-empty text used in examples. *)
Definition sample_text : String.string := "ab".

(** The text [bytes_to_hex] gives for 32 zero bytes. *)
Definition zero_hex_64 : String.string :=
  "0000000000000000000000000000000000000000000000000000000000000000".

End Reference.

(** *** Further definitions used to state properties *)

Module Blake3More.
Import Blake3.



(** A value fits a [uint32_t]. *)
Definition is_word (w : Z) : Prop := 0 <= w < 2 ^ 32.

End Blake3More.

Module Blake2bSpec.
Import Blake2b.

(** The buffer is a 128-byte array filled up to [buflen]. *)
Definition state_ok (st : blake2b_state) : Prop :=
  0 <= buflen st <= 128 /\ length (buf st) = 128%nat.

(** The statement [if (buflen == 128) { count, compress, buflen = 0 }] that
    makes room for a byte. *)
Definition flush (st : blake2b_state) : blake2b_state :=
  if buflen st =? 128 then
    set_buflen (blake2b_compress (add_counter st 128) (buf st)) 0
  else st.

(** Taking in a single byte: a full buffer is compressed first. *)
Definition absorb (st : blake2b_state) (b : Z) : blake2b_state :=
  let st := flush st in
  set_buflen (set_buf st (upd (buf st) (Z.to_nat (buflen st)) b))
             (buflen st + 1).

(** Two states agree on everything that can still influence a digest: all
    fields but the buffer bytes at and beyond [buflen] (and [last_node], which
    the functions never read). *)
Definition same_state (st1 st2 : blake2b_state) : Prop :=
  h st1 = h st2 /\ t st1 = t st2 /\ f st1 = f st2
  /\ buflen st1 = buflen st2 /\ outlen st1 = outlen st2
  /\ firstn (Z.to_nat (buflen st1)) (buf st1)
     = firstn (Z.to_nat (buflen st2)) (buf st2).

(** The bytes [blake2b_final] copies out after [blake2b_init (n)] and one
    [blake2b_update] call per piece; [None] when a call returns -1. *)
Definition blake2b_pieces (n : Z) (pieces : list (list Z)) : option (list Z) :=
  match blake2b_init n with
  | None => None
  | Some st => option_map snd (blake2b_final (fold_left blake2b_update pieces st) n)
  end.

End Blake2bSpec.

Module CoreMore.
Import Core.

(** Bit [k] of [b] as a number. *)
Definition bit (b : Z) (k : nat) : Z :=
  if Z.testbit b (Z.of_nat k) then 1 else 0.

(** The number of set bits among the low eight. *)
Definition popcount8 (b : Z) : Z :=
  fold_right Z.add 0 (map (bit b) (seq 0 8)).

(** A value fits a [uint8_t]. *)
Definition is_byte (b : Z) : Prop := 0 <= b < 256.

(** The sixteen characters of lowercase hexadecimal. *)
Definition hex_alphabet : list Ascii.ascii :=
  ["0"; "1"; "2"; "3"; "4"; "5"; "6"; "7";
   "8"; "9"; "a"; "b"; "c"; "d"; "e"; "f"]%char.

(** Candidate [i] is present and its text is the target's. *)
Definition is_match (target : String.string)
           (db_hashes : list (option String.string)) (i : nat) : bool :=
  match nth i db_hashes None with
  | Some e => String.eqb target e
  | None => false
  end.

(** The bit count of the difference of the bytes at position [i]. *)
Definition byte_distance (hash1 hash2 : list Z) (i : nat) : Z :=
  count_bits (wrap8 (Z.lxor (get hash1 i) (get hash2 i))).

(** Entry [i] of a string array is present and at most one chunk long. *)
Definition short_string (strings : list (option (list Z))) (i : nat) : Prop :=
  exists input, nth i strings None = Some input
                /\ Z.of_nat (length input) <= 1024.

End CoreMore.

(** ** Arrays and the result monad *)

Section Arrays.
Context {A : Type}.
Implicit Types (a : list A) (i j : nat) (v d : A).

Lemma upd_length a i v : length (upd a i v) = length a.
Proof.
  revert i; induction a as [|x a IH]; intros [|i]; simpl; auto.
Qed.

Lemma nth_upd_same a i v d :
  (i < length a)%nat -> nth i (upd a i v) d = v.
Proof.
  revert i; induction a as [|x a IH]; intros [|i] Hi; simpl in *;
    try lia; auto.
  apply IH; lia.
Qed.

Lemma nth_upd_other a i j v d :
  i <> j -> nth j (upd a i v) d = nth j a d.
Proof.
  revert i j; induction a as [|x a IH]; intros [|i] [|j] Hij; simpl;
    auto; try congruence.
Qed.

Lemma firstn_upd_succ a i v :
  (i < length a)%nat -> firstn (S i) (upd a i v) = firstn i a ++ [v].
Proof.
  revert i; induction a as [|x a IH]; intros [|i] Hi; simpl in *;
    try lia; auto.
  f_equal. apply IH. lia.
Qed.

Lemma skipn_upd_above a i j v :
  (i < j)%nat -> skipn j (upd a i v) = skipn j a.
Proof.
  revert i j; induction a as [|x a IH]; intros [|i] [|j] Hij; simpl;
    auto; try lia.
  apply IH. lia.
Qed.

Lemma memcpy_at_nil a i : memcpy_at a i [] = a.
Proof.
  unfold memcpy_at. simpl. rewrite Nat.add_0_r. apply firstn_skipn.
Qed.

Lemma memcpy_at_upd a i v src :
  (i < length a)%nat ->
  memcpy_at (upd a i v) (S i) src = memcpy_at a i (v :: src).
Proof.
  intros Hi. unfold memcpy_at.
  rewrite firstn_upd_succ by assumption.
  rewrite skipn_upd_above by lia.
  rewrite <- app_assoc. simpl.
  replace (i + S (length src))%nat with (S (i + length src)) by lia.
  reflexivity.
Qed.

Lemma memcpy_at_length a i src :
  (i + length src <= length a)%nat ->
  length (memcpy_at a i src) = length a.
Proof.
  intros H. unfold memcpy_at.
  rewrite !length_app, length_firstn, length_skipn. lia.
Qed.
End Arrays.

Section ResultMonad.
Context {A B : Type}.

Lemma foldM_nil (f : A -> B -> result A) a : foldM f [] a = Done a.
Proof. reflexivity. Qed.

Lemma fold_bind_fault (f : A -> B -> result A) l e :
  fold_left (fun r b => bind r (fun a => f a b)) l (Fault e) = Fault e.
Proof. induction l as [|b l IH]; simpl; auto. Qed.

Lemma foldM_cons (f : A -> B -> result A) b l a :
  foldM f (b :: l) a = bind (f a b) (foldM f l).
Proof.
  unfold foldM. simpl. destruct (f a b) as [a'|e]; simpl; auto.
  apply fold_bind_fault.
Qed.

Lemma foldM_app (f : A -> B -> result A) l1 l2 a :
  foldM f (l1 ++ l2) a = bind (foldM f l1 a) (foldM f l2).
Proof.
  revert a; induction l1 as [|b l1 IH]; intros a.
  - reflexivity.
  - simpl app. rewrite !foldM_cons.
    destruct (f a b) as [a'|e]; simpl; auto.
Qed.
End ResultMonad.

Lemma wrap64_small (x : Z) : 0 <= x < 2 ^ 64 -> wrap64 x = x.
Proof. apply Z.mod_small. Qed.

Lemma wrap8_small (x : Z) : 0 <= x < 2 ^ 8 -> wrap8 x = x.
Proof. apply Z.mod_small. Qed.

(** ** Tree hash: the extended output *)

Module Blake3Facts.
Import Blake3 Blake3Spec.

Lemma xof_words_prefix (state : list Z) :
  exists w8 w9 w10 w11 w12 w13 w14 w15,
    xof_words state = [0; 0; 0; 0; 0; 0; 0; 0; w8; w9; w10; w11; w12; w13; w14; w15].
Proof.
  unfold xof_words. cbn [seq map Nat.modulo Nat.divmod fst snd Nat.sub].
  rewrite !Z.lxor_nilpotent. repeat eexists.
Qed.

Lemma load_cv_zero_prefix (rest : list Z) :
  load_cv (repeat 0 32 ++ rest) = repeat 0 8.
Proof. reflexivity. Qed.
Lemma compress_xof_prefix (cv block : list Z) (block_len counter flags : Z) :
  exists rest,
    blake3_compress_xof cv block block_len counter flags = repeat 0 32 ++ rest
    /\ length rest = 32%nat.
Proof.
  unfold blake3_compress_xof.
  destruct (xof_words_prefix (compress_rounds cv block block_len counter flags))
    as (w8 & w9 & w10 & w11 & w12 & w13 & w14 & w15 & Hw).
  rewrite Hw.
  cbn [flat_map store32 app].
  exists (store32 w8 ++ store32 w9 ++ store32 w10 ++ store32 w11 ++ store32 w12 ++ store32 w13 ++ store32 w14 ++ store32 w15).
  split. reflexivity. reflexivity.
Qed.

Lemma compress_xof_length (cv block : list Z) (block_len counter flags : Z) :
  length (blake3_compress_xof cv block block_len counter flags) = 64%nat.
Proof.
  destruct (compress_xof_prefix cv block block_len counter flags)
    as (rest & Hout & Hlen).
  rewrite Hout, length_app, repeat_length. lia.
Qed.

Lemma load_cv_compress_xof (cv block : list Z) (block_len counter flags : Z) :
  load_cv (blake3_compress_xof cv block block_len counter flags) = repeat 0 8.
Proof.
  destruct (compress_xof_prefix cv block block_len counter flags)
    as (rest & Hout & _).
  rewrite Hout. apply load_cv_zero_prefix.
Qed.




Lemma root_output_length parent_nodes flags oob counter :
  length (root_output parent_nodes flags oob counter) = 64%nat.
Proof. unfold root_output. apply compress_xof_length. Qed.

Lemma root_output_prefix parent_nodes flags oob counter :
  firstn 32 (root_output parent_nodes flags oob counter) = repeat 0 32.
Proof.
  unfold root_output.
  match goal with |- context [blake3_compress_xof ?a ?b ?c ?d ?e] =>
    destruct (compress_xof_prefix a b c d e) as (rest & Hout & _) end.
  rewrite Hout. reflexivity.
Qed.

(** The 32-byte digest of every hasher state is 32 zero bytes. *)
Lemma finalize_32_zero (self : blake3_hasher) (oob : Z -> list Z) :
  blake3_hasher_finalize self oob 32 = repeat 0 32.
Proof.
  unfold blake3_hasher_finalize.
  change (64 <? 32) with false. change (32 <? 64) with true.
  cbv iota. apply root_output_prefix.
Qed.

(** The number of bytes [blake3_hasher_finalize] stores through [out]. *)
Lemma output_blocks_length parent_nodes flags oob :
  forall fuel counter out_len,
    (Z.to_nat out_len <= fuel + 64)%nat ->
    Z.of_nat (length (output_blocks fuel parent_nodes flags oob counter out_len))
    = if 64 <? out_len then 64 * ((out_len - 1) / 64) else 0.
Proof.
  induction fuel as [|fuel IH]; intros counter out_len Hfuel.
  - cbn [output_blocks length]. destruct (64 <? out_len) eqn:E; [|reflexivity].
    apply Z.ltb_lt in E. lia.
  - cbn [output_blocks]. destruct (64 <? out_len) eqn:E; [|reflexivity].
    apply Z.ltb_lt in E.
    rewrite length_app, length_firstn, root_output_length.
    change (Z.to_nat 64) with 64%nat. rewrite Nat.min_id.
    rewrite Nat2Z.inj_add, IH by lia.
    destruct (64 <? out_len - 64) eqn:E2.
    + apply Z.ltb_lt in E2.
      replace (out_len - 1) with ((out_len - 64 - 1) + 1 * 64) by lia.
      rewrite Z.div_add by lia. lia.
    + apply Z.ltb_ge in E2.
      replace ((out_len - 1) / 64) with 1; [lia|].
      apply Z.div_unique with (r := out_len - 1 - 64); lia.
Qed.

(** The fuel given to the output loop is never used up: more of it changes
    nothing. *)
Lemma output_blocks_fuel parent_nodes flags oob :
  forall fuel fuel' counter out_len,
    (Z.to_nat out_len <= fuel + 64)%nat -> (fuel <= fuel')%nat ->
    output_blocks fuel' parent_nodes flags oob counter out_len
    = output_blocks fuel parent_nodes flags oob counter out_len.
Proof.
  induction fuel as [|fuel IH]; intros fuel' counter out_len Hfuel Hle.
  - assert (E : (64 <? out_len) = false) by (apply Z.ltb_ge; lia).
    destruct fuel'; cbn [output_blocks]; rewrite ?E; reflexivity.
  - destruct fuel' as [|fuel']; [lia|]. cbn [output_blocks].
    destruct (64 <? out_len) eqn:E; [|reflexivity].
    apply Z.ltb_lt in E. f_equal. apply IH; lia.
Qed.

(** Sixty-four shifts exhaust a [uint64_t]: the carry loop of [add_chunk_cv]
    ends by its own condition or by a stack fault. *)
Lemma add_chunk_cv_loop_fuel (key : list Z) (flags : Z) :
  forall fuel stack new_cv total_chunks,
    0 <= total_chunks < 2 ^ Z.of_nat fuel ->
    add_chunk_cv_loop fuel key flags stack new_cv total_chunks
    <> Fault Diverges.
Proof.
  induction fuel as [|fuel IH]; intros stack new_cv total_chunks Hn;
    cbn [add_chunk_cv_loop].
  - replace total_chunks with 0 by (cbn in Hn; lia). cbn. discriminate.
  - destruct (Z.land total_chunks 1 =? 0); [discriminate|].
    destruct stack as [|top stack]; [discriminate|].
    apply IH. rewrite Z.shiftr_div_pow2 by lia.
    rewrite Nat2Z.inj_succ, Z.pow_succ_r in Hn by lia.
    split; [apply Z.div_pos; lia|].
    apply Z.div_lt_upper_bound; lia.
Qed.

Lemma finalize_length (self : blake3_hasher) (oob : Z -> list Z) (out_len : Z) :
  0 <= out_len ->
  Z.of_nat (length (blake3_hasher_finalize self oob out_len))
  = if 64 <? out_len then 64 * ((out_len + 63) / 64) else out_len.
Proof.
  intros Hlen. unfold blake3_hasher_finalize.
  destruct (64 <? out_len) eqn:E.
  - apply Z.ltb_lt in E.
    rewrite length_app, Nat2Z.inj_add, output_blocks_length by lia.
    apply Z.ltb_lt in E. rewrite E. apply Z.ltb_lt in E.
    rewrite length_firstn, root_output_length.
    replace (out_len <? 64) with false by (symmetry; apply Z.ltb_ge; lia).
    change (Z.to_nat 64) with 64%nat. rewrite Nat.min_id.
    replace (out_len + 63) with ((out_len - 1) + 1 * 64) by lia.
    rewrite Z.div_add by lia. lia.
  - apply Z.ltb_ge in E.
    rewrite length_firstn, root_output_length.
    destruct (out_len <? 64) eqn:E2.
    + apply Z.ltb_lt in E2. lia.
    + apply Z.ltb_ge in E2. lia.
Qed.

(** ** Tree hash: input is taken in byte by byte *)

Lemma chunk_flush_small (c : blake3_chunk_state) :
  buf_len c <> 64 -> chunk_flush c = c.
Proof.
  intros H. unfold chunk_flush, BLAKE3_BLOCK_LEN.
  destruct (buf_len c =? 64) eqn:E; [apply Z.eqb_eq in E; contradiction|reflexivity].
Qed.

Lemma chunk_flush_ok (c : blake3_chunk_state) :
  chunk_ok c ->
  0 <= buf_len (chunk_flush c) < 64 /\ length (buf (chunk_flush c)) = 64%nat.
Proof.
  intros [Hlen Hbuf]. unfold chunk_flush, BLAKE3_BLOCK_LEN.
  destruct (buf_len c =? 64) eqn:E; cbn [buf_len buf].
  - split; [lia|assumption].
  - apply Z.eqb_neq in E. split; [lia|assumption].
Qed.

Lemma chunk_flush_idem (c : blake3_chunk_state) :
  chunk_ok c -> chunk_flush (chunk_flush c) = chunk_flush c.
Proof.
  intros H. apply chunk_flush_small. destruct (chunk_flush_ok c H). lia.
Qed.

Lemma chunk_absorb_flush (c : blake3_chunk_state) (b : Z) :
  chunk_ok c -> chunk_absorb (chunk_flush c) b = chunk_absorb c b.
Proof.
  intros H. unfold chunk_absorb. rewrite chunk_flush_idem by assumption.
  reflexivity.
Qed.

Lemma chunk_absorb_ok (c : blake3_chunk_state) (b : Z) :
  chunk_ok c -> chunk_ok (chunk_absorb c b).
Proof.
  intros H. destruct (chunk_flush_ok c H) as [Hlen Hbuf].
  unfold chunk_absorb, chunk_ok. cbn [buf_len buf].
  rewrite upd_length. split; [lia|assumption].
Qed.

Lemma fold_chunk_absorb_ok (bytes : list Z) :
  forall c, chunk_ok c -> chunk_ok (fold_left chunk_absorb bytes c).
Proof.
  induction bytes as [|b bytes IH]; intros c H; cbn [fold_left]; auto.
  apply IH, chunk_absorb_ok, H.
Qed.

(** Bytes that fit into the buffer are copied behind the ones it holds. *)
Lemma chunk_absorb_run (bytes : list Z) :
  forall c,
    0 <= buf_len c ->
    buf_len c + Z.of_nat (length bytes) <= 64 ->
    length (buf c) = 64%nat ->
    fold_left chunk_absorb bytes c
    = {| cv := cv c;
         chunk_counter := chunk_counter c;
         buf := memcpy_at (buf c) (Z.to_nat (buf_len c)) bytes;
         buf_len := buf_len c + Z.of_nat (length bytes);
         blocks_compressed := blocks_compressed c;
         flags := flags c |}.
Proof.
  induction bytes as [|b bytes IH]; intros c H0 Hfit Hbuf.
  - cbn [fold_left length]. rewrite memcpy_at_nil, Z.add_0_r.
    destruct c; reflexivity.
  - cbn [fold_left]. cbn [length] in Hfit.
    rewrite IH.
    + unfold chunk_absorb. rewrite chunk_flush_small by lia.
      cbn [cv chunk_counter buf buf_len blocks_compressed flags].
      replace (Z.to_nat (buf_len c + 1)) with (S (Z.to_nat (buf_len c))) by lia.
      rewrite memcpy_at_upd by lia.
      f_equal. cbn [length]. lia.
    + unfold chunk_absorb. cbn [buf_len]. rewrite chunk_flush_small by lia. lia.
    + unfold chunk_absorb. cbn [buf_len]. rewrite chunk_flush_small by lia. lia.
    + unfold chunk_absorb. cbn [buf]. rewrite upd_length, chunk_flush_small by lia.
      assumption.
Qed.

Lemma fold_chunk_absorb_flush (bytes : list Z) (c : blake3_chunk_state) :
  chunk_ok c -> bytes <> [] ->
  fold_left chunk_absorb bytes (chunk_flush c) = fold_left chunk_absorb bytes c.
Proof.
  intros H Hne. destruct bytes as [|b bytes]; [contradiction|].
  cbn [fold_left]. rewrite chunk_absorb_flush by assumption. reflexivity.
Qed.

(** One iteration of the loop of [chunk_state_update] takes between one byte
    and all of the input, and leaves what taking them one by one leaves. *)
Lemma chunk_state_update_body_absorb (c : blake3_chunk_state) (input : list Z) :
  chunk_ok c -> input <> [] ->
  exists take,
    (1 <= take <= length input)%nat
    /\ chunk_state_update_body c input
       = (fold_left chunk_absorb (firstn take input) c, skipn take input).
Proof.
  intros Hok Hne.
  destruct (chunk_flush_ok c Hok) as [Hlen Hbuf].
  assert (Hpos : (1 <= length input)%nat).
  { destruct input; [contradiction|cbn [length]; lia]. }
  unfold chunk_state_update_body, BLAKE3_BLOCK_LEN.
  set (c' := chunk_flush c) in *.
  rewrite (wrap64_small (64 - buf_len c')) by lia.
  set (take := if Z.of_nat (length input) <? 64 - buf_len c'
               then Z.of_nat (length input) else 64 - buf_len c').
  assert (Htake : 1 <= take <= Z.of_nat (length input)
                  /\ take <= 64 - buf_len c').
  { subst take. destruct (Z.of_nat (length input) <? 64 - buf_len c') eqn:E;
      [apply Z.ltb_lt in E|apply Z.ltb_ge in E]; lia. }
  exists (Z.to_nat take). split; [lia|].
  f_equal.
  rewrite <- fold_chunk_absorb_flush; [|assumption|].
  - fold c'. rewrite chunk_absorb_run.
    + rewrite length_firstn.
      replace (Nat.min (Z.to_nat take) (length input)) with (Z.to_nat take) by lia.
      rewrite Z2Nat.id by lia.
      rewrite wrap8_small by lia. reflexivity.
    + lia.
    + rewrite length_firstn. lia.
    + assumption.
  - intros E. apply (f_equal (@length Z)) in E.
    rewrite length_firstn in E. cbn [length] in E. lia.
Qed.

Lemma chunk_state_update_loop_absorb :
  forall fuel input c,
    chunk_ok c -> (length input <= fuel)%nat ->
    chunk_state_update_loop fuel c input = Done (fold_left chunk_absorb input c).
Proof.
  induction fuel as [|fuel IH]; intros input c Hok Hfuel.
  - destruct input; [reflexivity|cbn [length] in Hfuel; lia].
  - destruct input as [|b input]; [reflexivity|].
    cbn [chunk_state_update_loop].
    destruct (chunk_state_update_body_absorb c (b :: input) Hok)
      as (take & Htake & ->); [discriminate|].
    rewrite IH.
    + rewrite <- fold_left_app, firstn_skipn. reflexivity.
    + apply fold_chunk_absorb_ok, Hok.
    + rewrite length_skipn. lia.
Qed.

(** [chunk_state_update] terminates and equals byte-wise absorption. *)
Lemma chunk_state_update_total (c : blake3_chunk_state) (input : list Z) :
  chunk_ok c ->
  chunk_state_update c input = Done (fold_left chunk_absorb input c).
Proof.
  intros H. apply chunk_state_update_loop_absorb; [assumption|lia].
Qed.

Lemma set_chunk_same (self : blake3_hasher) : set_chunk self (chunk self) = self.
Proof. destruct self; reflexivity. Qed.

Lemma chunk_is_full_used (c : blake3_chunk_state) :
  chunk_ok c -> 0 <= blocks_compressed c <= 15 ->
  (chunk_is_full c = true <-> chunk_used c = 1024).
Proof.
  intros [Hlen _] Hbc. unfold chunk_is_full, chunk_used.
  change BLAKE3_BLOCK_LEN with 64.
  change (BLAKE3_CHUNK_LEN / 64 - 1) with 15.
  rewrite andb_true_iff, !Z.eqb_eq. lia.
Qed.

Lemma chunk_used_bound (c : blake3_chunk_state) :
  chunk_ok c -> 0 <= blocks_compressed c <= 15 -> 0 <= chunk_used c <= 1024.
Proof. intros [Hlen _] Hbc. unfold chunk_used. lia. Qed.

Lemma finish_chunk_not_full (self : blake3_hasher) :
  chunk_is_full (chunk self) = false -> finish_chunk self = Done self.
Proof. intros H. unfold finish_chunk. rewrite H. reflexivity. Qed.

(** After [finish_chunk] the current chunk has room for another byte. *)
Lemma finish_chunk_ok (self self' : blake3_hasher) :
  hasher_ok self -> finish_chunk self = Done self' ->
  hasher_ok self' /\ chunk_used (chunk self') < 1024.
Proof.
  intros [Hc Hbc] Hfin. unfold finish_chunk in Hfin.
  destruct (chunk_is_full (chunk self)) eqn:Hfull.
  - destruct (add_chunk_cv self _ _) as [s|e]; cbn [bind] in Hfin;
      [|discriminate].
    injection Hfin as <-. unfold hasher_ok, chunk_ok, chunk_used.
    cbn. repeat split; lia.
  - injection Hfin as <-. split; [split; assumption|].
    pose proof (chunk_used_bound _ Hc Hbc).
    pose proof (chunk_is_full_used _ Hc Hbc) as Hiff.
    destruct (Z.eq_dec (chunk_used (chunk self)) 1024) as [E|E]; [|lia].
    apply Hiff in E. congruence.
Qed.

Lemma chunk_absorb_used (c : blake3_chunk_state) (b : Z) :
  chunk_ok c -> 0 <= blocks_compressed c <= 15 -> chunk_used c < 1024 ->
  0 <= blocks_compressed (chunk_absorb c b) <= 15
  /\ chunk_used (chunk_absorb c b) = chunk_used c + 1.
Proof.
  intros [Hlen Hbuf] Hbc Hused. unfold chunk_used in *.
  unfold chunk_absorb, chunk_flush. change BLAKE3_BLOCK_LEN with 64.
  destruct (buf_len c =? 64) eqn:E; cbn [blocks_compressed buf_len].
  - apply Z.eqb_eq in E. rewrite wrap8_small by lia. lia.
  - apply Z.eqb_neq in E. lia.
Qed.

Lemma hasher_absorb_ok (self self' : blake3_hasher) (b : Z) :
  hasher_ok self -> hasher_absorb self b = Done self' -> hasher_ok self'.
Proof.
  intros Hok H. unfold hasher_absorb in H.
  destruct (finish_chunk self) as [s|e] eqn:Hfin; cbn [bind] in H;
    [|discriminate].
  injection H as <-.
  destruct (finish_chunk_ok _ _ Hok Hfin) as [[Hc Hbc] Hused].
  split; cbn [set_chunk chunk].
  - apply chunk_absorb_ok, Hc.
  - apply chunk_absorb_used; assumption.
Qed.

Lemma foldM_hasher_absorb_ok (bytes : list Z) :
  forall self self',
    hasher_ok self -> foldM hasher_absorb bytes self = Done self' ->
    hasher_ok self'.
Proof.
  induction bytes as [|b bytes IH]; intros self self' Hok H.
  - injection H as <-. assumption.
  - rewrite foldM_cons in H.
    destruct (hasher_absorb self b) as [s|e] eqn:Hs; cbn [bind] in H;
      [|discriminate].
    eapply IH; [|eassumption]. eapply hasher_absorb_ok; eassumption.
Qed.

(** Bytes that fit into the current chunk only touch the chunk state. *)
Lemma foldM_hasher_absorb_fit (bytes : list Z) :
  forall self,
    hasher_ok self ->
    chunk_used (chunk self) + Z.of_nat (length bytes) <= 1024 ->
    foldM hasher_absorb bytes self
    = Done (set_chunk self (fold_left chunk_absorb bytes (chunk self))).
Proof.
  induction bytes as [|b bytes IH]; intros self Hok Hfit.
  - cbn [fold_left]. rewrite set_chunk_same. reflexivity.
  - cbn [length] in Hfit. destruct Hok as [Hc Hbc].
    assert (Hfull : chunk_is_full (chunk self) = false).
    { destruct (chunk_is_full (chunk self)) eqn:E; [|reflexivity].
      apply chunk_is_full_used in E; [lia|assumption..]. }
    rewrite foldM_cons. unfold hasher_absorb at 1.
    rewrite finish_chunk_not_full by assumption. cbn [bind].
    destruct (chunk_absorb_used (chunk self) b Hc Hbc ltac:(lia)) as [Hbc' Hused'].
    rewrite IH.
    + reflexivity.
    + split; cbn [set_chunk chunk]; [apply chunk_absorb_ok, Hc|assumption].
    + cbn [set_chunk chunk]. lia.
Qed.

(** One iteration of the loop of [blake3_hasher_update]. *)
Lemma blake3_hasher_update_body_absorb (self : blake3_hasher) (input : list Z) :
  hasher_ok self -> input <> [] ->
  exists take,
    (1 <= take <= length input)%nat
    /\ blake3_hasher_update_body self input
       = bind (foldM hasher_absorb (firstn take input) self)
              (fun s => Done (s, skipn take input)).
Proof.
  intros Hok Hne.
  destruct input as [|b input]; [contradiction|].
  unfold blake3_hasher_update_body.
  destruct (finish_chunk self) as [s|e] eqn:Hfin; cbn [bind].
  - destruct (finish_chunk_ok _ _ Hok Hfin) as [Hok' Hused].
    pose proof Hok' as [Hc Hbc].
    pose proof (chunk_used_bound _ Hc Hbc) as Hbound.
    unfold chunk_used in Hused, Hbound.
    change BLAKE3_CHUNK_LEN with 1024. change BLAKE3_BLOCK_LEN with 64.
    rewrite wrap64_small by lia.
    set (used := blocks_compressed (chunk s) * 64 + buf_len (chunk s)) in *.
    set (len := Z.of_nat (length (b :: input))).
    assert (Hlen : 1 <= len) by (subst len; cbn [length]; lia).
    set (take := if len <? 1024 - used then len else 1024 - used).
    assert (Htake : 1 <= take <= len /\ take <= 1024 - used).
    { subst take. destruct (len <? 1024 - used) eqn:E;
        [apply Z.ltb_lt in E|apply Z.ltb_ge in E]; lia. }
    exists (Z.to_nat take). split; [subst len; lia|].
    rewrite chunk_state_update_total by assumption. cbn [bind].
    assert (Hs : foldM hasher_absorb (firstn (Z.to_nat take) (b :: input)) self
                 = foldM hasher_absorb (firstn (Z.to_nat take) (b :: input)) s).
    { destruct (Z.to_nat take) as [|n] eqn:En; [lia|].
      cbn [firstn]. rewrite !foldM_cons. f_equal.
      unfold hasher_absorb. rewrite Hfin.
      rewrite finish_chunk_not_full; [reflexivity|].
      destruct (chunk_is_full (chunk s)) eqn:E; [|reflexivity].
      apply chunk_is_full_used in E; [unfold chunk_used in E; lia|assumption..]. }
    rewrite Hs, foldM_hasher_absorb_fit.
    + reflexivity.
    + assumption.
    + rewrite length_firstn. unfold chunk_used. fold used. subst len. lia.
  - exists 1%nat. split; [cbn [length]; lia|].
    cbn [firstn]. rewrite foldM_cons. unfold hasher_absorb. rewrite Hfin.
    reflexivity.
Qed.

Lemma blake3_hasher_update_loop_absorb :
  forall fuel input self,
    hasher_ok self -> (length input <= fuel)%nat ->
    blake3_hasher_update_loop fuel self input = foldM hasher_absorb input self.
Proof.
  induction fuel as [|fuel IH]; intros input self Hok Hfuel.
  - destruct input; [reflexivity|cbn [length] in Hfuel; lia].
  - destruct input as [|b input]; [reflexivity|].
    cbn [blake3_hasher_update_loop].
    destruct (blake3_hasher_update_body_absorb self (b :: input) Hok)
      as (take & Htake & ->); [discriminate|].
    replace (foldM hasher_absorb (b :: input) self)
      with (foldM hasher_absorb
              (firstn take (b :: input) ++ skipn take (b :: input)) self)
      by (rewrite firstn_skipn; reflexivity).
    rewrite foldM_app.
    destruct (foldM hasher_absorb (firstn take (b :: input)) self)
      as [s|e] eqn:Hs; cbn [bind]; [|reflexivity].
    apply IH.
    + eapply foldM_hasher_absorb_ok; eassumption.
    + rewrite length_skipn. lia.
Qed.

(** [blake3_hasher_update] is byte-wise absorption. *)
Lemma blake3_hasher_update_absorb (self : blake3_hasher) (input : list Z) :
  hasher_ok self ->
  blake3_hasher_update self input = foldM hasher_absorb input self.
Proof.
  intros H. apply blake3_hasher_update_loop_absorb; [assumption|lia].
Qed.

Lemma blake3_hasher_update_ok (self self' : blake3_hasher) (input : list Z) :
  hasher_ok self -> blake3_hasher_update self input = Done self' ->
  hasher_ok self'.
Proof.
  intros Hok H. rewrite blake3_hasher_update_absorb in H by assumption.
  eapply foldM_hasher_absorb_ok; eassumption.
Qed.

Lemma blake3_hasher_update_app (self : blake3_hasher) (xs ys : list Z) :
  hasher_ok self ->
  blake3_hasher_update self (xs ++ ys)
  = bind (blake3_hasher_update self xs) (fun s => blake3_hasher_update s ys).
Proof.
  intros Hok. rewrite !blake3_hasher_update_absorb by assumption.
  rewrite foldM_app.
  destruct (foldM hasher_absorb xs self) as [s|e] eqn:Hs; cbn [bind];
    [|reflexivity].
  symmetry. apply blake3_hasher_update_absorb.
  eapply foldM_hasher_absorb_ok; eassumption.
Qed.


Lemma blake3_hasher_init_ok : hasher_ok blake3_hasher_init.
Proof. unfold hasher_ok, chunk_ok. cbn. repeat split; lia. Qed.

(** Up to 1024 bytes stay in the first chunk; the stack is not touched. *)
Lemma blake3_hasher_update_first_chunk (input : list Z) :
  Z.of_nat (length input) <= 1024 ->
  blake3_hasher_update blake3_hasher_init input
  = Done (set_chunk blake3_hasher_init
            (fold_left chunk_absorb input (chunk blake3_hasher_init))).
Proof.
  intros H. rewrite blake3_hasher_update_absorb by apply blake3_hasher_init_ok.
  apply foldM_hasher_absorb_fit; [apply blake3_hasher_init_ok|].
  cbn. lia.
Qed.

Lemma fold_chunk_absorb_used (bytes : list Z) :
  forall c,
    chunk_ok c -> 0 <= blocks_compressed c <= 15 ->
    chunk_used c + Z.of_nat (length bytes) <= 1024 ->
    chunk_ok (fold_left chunk_absorb bytes c)
    /\ 0 <= blocks_compressed (fold_left chunk_absorb bytes c) <= 15
    /\ chunk_used (fold_left chunk_absorb bytes c)
       = chunk_used c + Z.of_nat (length bytes)
    /\ chunk_counter (fold_left chunk_absorb bytes c) = chunk_counter c.
Proof.
  induction bytes as [|b bytes IH]; intros c Hc Hbc Hfit; cbn [fold_left length] in *.
  - split; [assumption|]. split; [assumption|]. split; [lia|reflexivity].
  - destruct (chunk_absorb_used c b Hc Hbc ltac:(lia)) as [Hbc' Hused'].
    destruct (IH (chunk_absorb c b)) as (H1 & H2 & H3 & H4);
      [apply chunk_absorb_ok, Hc|assumption|lia|].
    split; [assumption|]. split; [assumption|]. split; [lia|].
    rewrite H4. unfold chunk_absorb, chunk_flush.
    destruct (buf_len c =? BLAKE3_BLOCK_LEN); reflexivity.
Qed.

(** With nothing on the stack, [add_chunk_cv] for an odd [total_chunks]
    reads below the stack array. *)
Lemma add_chunk_cv_underflow (self : blake3_hasher) (new_cv : list Z) :
  cv_stack self = [] -> add_chunk_cv self new_cv 1 = Fault StackUnderflow.
Proof. intros H. unfold add_chunk_cv. rewrite H. reflexivity. Qed.

Lemma blake3_first_chunk (input : list Z) (oob : Z -> list Z) :
  Z.of_nat (length input) <= 1024 ->
  blake3 input oob 32 = Done (repeat 0 32).
Proof.
  intros H. unfold blake3.
  rewrite blake3_hasher_update_first_chunk by assumption.
  cbn [bind]. rewrite finalize_32_zero. reflexivity.
Qed.

Lemma blake3_hash_string_first_chunk (input : list Z) (oob : Z -> list Z) :
  Z.of_nat (length input) <= 1024 ->
  Core.blake3_hash_string (Some input) true oob
  = Done (Some Reference.zero_hex_64).
Proof.
  intros H. unfold Core.blake3_hash_string.
  change Core.DETECTIVE_HASH_LEN with 32.
  rewrite blake3_first_chunk by assumption. reflexivity.
Qed.

(** Prefix consistency of the extended output. *)
Lemma finalize_prefix (self : blake3_hasher) (oob : Z -> list Z) (out_len : Z) :
  32 <= out_len ->
  firstn 32 (blake3_hasher_finalize self oob out_len)
  = blake3_hasher_finalize self oob 32.
Proof.
  intros H. rewrite finalize_32_zero. unfold blake3_hasher_finalize.
  set (wide_buf := root_output _ _ _ _).
  assert (Hw : firstn 32 wide_buf = repeat 0 32) by apply root_output_prefix.
  assert (Hl : length wide_buf = 64%nat) by apply root_output_length.
  assert (Hhead : forall n, (32 <= n)%nat ->
                            firstn 32 (firstn n wide_buf) = repeat 0 32).
  { intros n Hn. rewrite firstn_firstn.
    replace (Nat.min 32 n) with 32%nat by lia. exact Hw. }
  destruct (64 <? out_len) eqn:E.
  - apply Z.ltb_lt in E.
    replace (out_len <? 64) with false by (symmetry; apply Z.ltb_ge; lia).
    rewrite firstn_app, length_firstn, Hl.
    change (Z.to_nat 64) with 64%nat.
    replace (32 - Nat.min 64 64)%nat with 0%nat by lia.
    rewrite firstn_O, app_nil_r. apply Hhead. lia.
  - apply Z.ltb_ge in E. apply Hhead.
    destruct (out_len <? 64) eqn:E2; lia.
Qed.

(** ** Tree hash: the claims *)



(** C3.  The first chunk that is completed is handed to [add_chunk_cv] with
    [total_chunks = 1]; the low bit is set, so the carry loop pops although
    the stack is empty.  Every input longer than one chunk stops there. *)
Theorem first_chunk_pops_empty_stack (input : list Z) :
  1024 < Z.of_nat (length input) ->
  blake3_hasher_update blake3_hasher_init input = Fault StackUnderflow.
Proof.
  intros Hlen.
  rewrite <- (firstn_skipn 1024 input).
  rewrite blake3_hasher_update_app by apply blake3_hasher_init_ok.
  assert (Hfirst : length (firstn 1024 input) = 1024%nat)
    by (rewrite length_firstn; lia).
  rewrite blake3_hasher_update_first_chunk by lia.
  cbn [bind].
  destruct (skipn 1024 input) as [|b rest] eqn:Hrest.
  { apply (f_equal (@length Z)) in Hrest. rewrite length_skipn in Hrest.
    cbn [length] in Hrest. lia. }
  set (c := fold_left chunk_absorb (firstn 1024 input) (chunk blake3_hasher_init)).
  destruct (fold_chunk_absorb_used (firstn 1024 input) (chunk blake3_hasher_init))
    as (Hc & Hbc & Hused & Hctr);
    [apply blake3_hasher_init_ok|cbn; lia|rewrite Hfirst; cbn; lia|].
  fold c in Hc, Hbc, Hused, Hctr.
  assert (Hok : hasher_ok (set_chunk blake3_hasher_init c)) by (split; assumption).
  rewrite blake3_hasher_update_absorb by assumption.
  rewrite foldM_cons.
  assert (Hfin : finish_chunk (set_chunk blake3_hasher_init c)
                 = Fault StackUnderflow).
  { unfold finish_chunk. cbn [set_chunk chunk].
    replace (chunk_is_full c) with true.
    2:{ symmetry. apply chunk_is_full_used; [assumption..|].
        rewrite Hused, Hfirst. reflexivity. }
    rewrite Hctr. change (wrap64 (chunk_counter (chunk blake3_hasher_init) + 1)) with 1.
    rewrite add_chunk_cv_underflow by reflexivity. reflexivity. }
  unfold hasher_absorb. rewrite Hfin. reflexivity.
Qed.

Lemma first_chunk_pops_empty_stack_witness :
  1024 < Z.of_nat (length (repeat 0 1025))
  /\ blake3_hasher_update blake3_hasher_init (repeat 0 1025)
     = Fault StackUnderflow.
Proof.
  split; [reflexivity|].
  apply first_chunk_pops_empty_stack. reflexivity.
Defined.

(** C4.  For a requested length of 1000 bytes [blake3_hasher_finalize]
    stores sixteen whole blocks, 1024 bytes, through [out]: inside the loop
    [this_block_len] is always 64. *)
Theorem finalize_1000_stores_1024 (self : blake3_hasher) (oob : Z -> list Z) :
  length (blake3_hasher_finalize self oob 1000) = 1024%nat.
Proof.
  apply Nat2Z.inj. rewrite finalize_length by lia. reflexivity.
Qed.


End Blake3Facts.

(** ** Sequential hash *)

Module Blake2bFacts.
Import Blake2b.

(** The block loop of [blake2b_update] ends by its own condition: at most
    128 bytes are left for the buffer. *)
Lemma update_blocks_rest :
  forall fuel st input,
    (length input <= fuel)%nat ->
    Z.of_nat (length (snd (update_blocks fuel st input))) <= 128.
Proof.
  induction fuel as [|fuel IH]; intros st input Hfuel; cbn [update_blocks].
  - cbn [snd]. lia.
  - destruct (128 <? Z.of_nat (length input)) eqn:E.
    + apply IH. rewrite length_skipn. apply Z.ltb_lt in E. lia.
    + cbn [snd]. apply Z.ltb_ge in E. exact E.
Qed.

Lemma add_counter_buflen (st : blake2b_state) (n : Z) :
  buflen (add_counter st n) = buflen st.
Proof.
  unfold add_counter. destruct (_ <? n); reflexivity.
Qed.

Lemma update_blocks_invariant :
  forall fuel st input,
    (1 <= length input)%nat ->
    buflen (fst (update_blocks fuel st input)) = buflen st
    /\ (1 <= length (snd (update_blocks fuel st input)))%nat.
Proof.
  induction fuel as [|fuel IH]; intros st input Hlen; cbn [update_blocks].
  - split; [reflexivity|exact Hlen].
  - destruct (128 <? Z.of_nat (length input)) eqn:E.
    + apply Z.ltb_lt in E.
      destruct (IH (blake2b_compress (add_counter st 128) (firstn 128 input))
                   (skipn 128 input)) as [Hb Hr].
      * rewrite length_skipn. lia.
      * split; [|exact Hr].
        rewrite Hb. unfold blake2b_compress. cbn [set_h buflen].
        apply add_counter_buflen.
    + split; [reflexivity|exact Hlen].
Qed.

(** After input has been fed the buffer is never empty (and never holds more
    than a block): [blake2b_update] keeps the last block back for
    [blake2b_final]. *)
Lemma blake2b_update_buflen (st : blake2b_state) (input : list Z) :
  0 <= buflen st <= 128 ->
  input <> [] ->
  Z.of_nat (length input) < 2 ^ 63 ->
  0 < buflen (blake2b_update st input) <= 128.
Proof.
  intros Hb Hne Hsize.
  assert (Hlen : 1 <= Z.of_nat (length input)).
  { destruct input; [contradiction|cbn [length]; lia]. }
  unfold blake2b_update.
  rewrite (wrap64_small (buflen st + Z.of_nat (length input))) by lia.
  destruct (128 <? buflen st + Z.of_nat (length input)) eqn:E.
  - apply Z.ltb_lt in E.
    rewrite !(wrap64_small (128 - buflen st)) by lia.
    set (rest := skipn (Z.to_nat (128 - buflen st)) input).
    assert (Hrest : (1 <= length rest)%nat).
    { subst rest. rewrite length_skipn. lia. }
    match goal with
    | |- context [update_blocks (length rest) ?s rest] =>
        pose proof (update_blocks_invariant (length rest) s rest Hrest) as [Hbl Hr];
        pose proof (update_blocks_rest (length rest) s rest (Nat.le_refl _)) as Hr';
        destruct (update_blocks (length rest) s rest) as [st2 rest2]
    end.
    cbn [fst snd set_buflen buflen] in Hbl, Hr, Hr'.
    replace (0 <? Z.of_nat (length rest2)) with true
      by (symmetry; apply Z.ltb_lt; lia).
    cbn [set_buflen set_buf buflen]. rewrite Hbl.
    rewrite wrap64_small by lia. lia.
  - apply Z.ltb_ge in E.
    replace (0 <? Z.of_nat (length input)) with true
      by (symmetry; apply Z.ltb_lt; lia).
    cbn [set_buflen set_buf buflen].
    rewrite wrap64_small by lia. lia.
Qed.

(** With bytes in the buffer, [blake2b_final] pads, counts, flags and
    compresses before it serializes. *)
Lemma blake2b_final_buffered (st : blake2b_state) :
  0 < buflen st ->
  blake2b_final st (outlen st)
  = Some (final_block st, serialize (final_block st)).
Proof.
  intros H. unfold blake2b_final. rewrite Z.eqb_refl. cbn [negb].
  apply Z.ltb_lt in H. rewrite H. reflexivity.
Qed.

(** Hence every non-empty input ends in a flagged last compression. *)
Lemma blake2b_final_after_input (st : blake2b_state) (input : list Z) :
  0 <= buflen st <= 128 ->
  input <> [] ->
  Z.of_nat (length input) < 2 ^ 63 ->
  blake2b_final (blake2b_update st input) (outlen (blake2b_update st input))
  = Some (final_block (blake2b_update st input),
          serialize (final_block (blake2b_update st input))).
Proof.
  intros Hb Hne Hsize. apply blake2b_final_buffered.
  apply blake2b_update_buflen; assumption.
Qed.

(** With an empty buffer nothing of that happens. *)
Lemma blake2b_final_empty_buffer (st : blake2b_state) :
  buflen st = 0 ->
  blake2b_final st (outlen st) = Some (st, serialize st).
Proof.
  intros H. unfold blake2b_final. rewrite Z.eqb_refl, H. reflexivity.
Qed.

Lemma blake2b_update_nil (st : blake2b_state) :
  0 <= buflen st <= 128 -> blake2b_update st [] = st.
Proof.
  intros H. unfold blake2b_update. cbn [length Z.of_nat].
  rewrite Z.add_0_r.
  replace (128 <? wrap64 (buflen st)) with false; [reflexivity|].
  symmetry. apply Z.ltb_ge. unfold wrap64. rewrite Z.mod_small; lia.
Qed.

(** C5.  After [blake2b_init] and no input, [blake2b_final] leaves the state
    as it is: the finalization flag is still zero, no compression has taken
    place, and the bytes handed out are those of the initialization vector. *)
Theorem blake2b_final_without_input (n : Z) (st : blake2b_state) :
  blake2b_init n = Some st ->
  blake2b_final (blake2b_update st []) n
  = Some (st, firstn (Z.to_nat n) (flat_map store64 blake2b_IV))
  /\ f st = [0; 0] /\ h st = blake2b_IV.
Proof.
  unfold blake2b_init. destruct ((n =? 0) || (64 <? n)); [discriminate|].
  intros H. injection H as <-.
  rewrite blake2b_update_nil by (cbn; lia).
  split; [|split; reflexivity].
  unfold blake2b_final. cbn [outlen buflen]. rewrite Z.eqb_refl. reflexivity.
Qed.

Lemma blake2b_final_without_input_witness :
  exists st,
    blake2b_init 64 = Some st
    /\ blake2b_final (blake2b_update st []) 64
       = Some (st, flat_map store64 blake2b_IV)
    /\ f st = [0; 0] /\ h st = blake2b_IV.
Proof.
  eexists. split; [reflexivity|].
  apply (blake2b_final_without_input 64). reflexivity.
Defined.

End Blake2bFacts.

(** ** Known digests *)

(** C1.  The text [hash] returns for the empty input and for "abc", and the
    text [blake3_hash_string] returns for them and for the header's own usage
    example, against the published BLAKE2b-512 and BLAKE3 digests: none
    agrees. *)
Theorem known_vectors_not_reproduced (oob : Z -> list Z) :
  (Blake2b.hash [] true = Some Reference.hash_of_empty
   /\ Reference.hash_of_empty <> Reference.blake2b_512_empty)
  /\ (Blake2b.hash Reference.abc true = Some Reference.hash_of_abc
      /\ Reference.hash_of_abc <> Reference.blake2b_512_abc)
  /\ (Core.blake3_hash_string (Some []) true oob
      = Done (Some Reference.zero_hex_64)
      /\ Reference.zero_hex_64 <> Reference.blake3_empty)
  /\ (Core.blake3_hash_string (Some Reference.abc) true oob
      = Done (Some Reference.zero_hex_64)
      /\ Reference.zero_hex_64 <> Reference.blake3_abc)
  /\ (Core.blake3_hash_string (Some Reference.hello_world) true oob
      = Done (Some Reference.zero_hex_64)
      /\ String.prefix Reference.documented_prefix Reference.zero_hex_64
         = false).
Proof.
  repeat split;
    try (apply Blake3Facts.blake3_hash_string_first_chunk; vm_compute;
         discriminate);
    try (vm_compute; reflexivity);
    vm_compute; discriminate.
Qed.

(** ** Batch matching *)

Module CoreFacts.
Import Core CoreSpec.

(** *** The scans collect in index order *)

Lemma compare_scan_flat_map target_hash db_hashes db_count :
  compare_scan target_hash db_hashes db_count
  = flat_map (compare_hit target_hash db_hashes) (seq 0 (Z.to_nat db_count)).
Proof.
  unfold compare_scan.
  assert (H : forall l acc,
             fold_left (compare_scan_body target_hash db_hashes) l acc
             = acc ++ flat_map (compare_hit target_hash db_hashes) l).
  { induction l as [|i l IH]; intros acc; cbn [fold_left flat_map].
    - rewrite app_nil_r. reflexivity.
    - rewrite IH. unfold compare_scan_body, compare_hit.
      destruct (nth i db_hashes None) as [e|].
      + destruct (hash_compare target_hash (Some e) =? 0).
        * rewrite <- app_assoc. reflexivity.
        * reflexivity.
      + reflexivity. }
  apply H.
Qed.

Lemma compare_scan_in target_hash db_hashes db_count i :
  In i (compare_scan target_hash db_hashes db_count)
  <-> exists k e, (k < Z.to_nat db_count)%nat /\ i = Z.of_nat k
                  /\ nth k db_hashes None = Some e
                  /\ hash_compare target_hash (Some e) = 0.
Proof.
  rewrite compare_scan_flat_map, in_flat_map. split.
  - intros (k & Hk & Hi). apply in_seq in Hk. unfold compare_hit in Hi.
    destruct (nth k db_hashes None) as [e|] eqn:He; [|contradiction].
    destruct (hash_compare target_hash (Some e) =? 0) eqn:Hc; [|contradiction].
    destruct Hi as [<-|[]]. apply Z.eqb_eq in Hc.
    exists k, e. repeat split; auto; lia.
  - intros (k & e & Hk & -> & He & Hc). exists k. split.
    + apply in_seq. lia.
    + unfold compare_hit. rewrite He, Hc. left. reflexivity.
Qed.

Lemma similarity_scan_flat_map target_hash hash_len db_hashes db_count threshold :
  similarity_scan target_hash hash_len db_hashes db_count threshold
  = flat_map (similarity_hit target_hash hash_len db_hashes threshold)
             (seq 0 (Z.to_nat db_count)).
Proof.
  unfold similarity_scan. cbv zeta.
  assert (H : forall l acc,
             fold_left (similarity_scan_body target_hash hash_len db_hashes
                          threshold (to_int (wrap64 (hash_len * 8)))) l acc
             = acc ++ flat_map (similarity_hit target_hash hash_len db_hashes
                                               threshold) l).
  { induction l as [|i l IH]; intros acc; cbn [fold_left flat_map].
    - rewrite app_nil_r. reflexivity.
    - rewrite IH. unfold similarity_scan_body, similarity_hit.
      destruct (nth i db_hashes None) as [e|]; [|reflexivity].
      cbv zeta.
      destruct (hash_hamming_distance (Some target_hash) (Some e) hash_len <? 0);
        [reflexivity|].
      destruct (Qle_bool threshold _).
      + rewrite <- app_assoc. reflexivity.
      + reflexivity. }
  apply H.
Qed.

(** Eight shifts clear a byte: [count_bits] never stops for lack of fuel. *)
Lemma count_bits_loop_fuel :
  forall fuel byte count,
    0 <= byte < 2 ^ Z.of_nat fuel ->
    count_bits_loop (S fuel) byte count = count_bits_loop fuel byte count.
Proof.
  induction fuel as [|fuel IH]; intros byte count Hb.
  - replace byte with 0 by (cbn in Hb; lia). reflexivity.
  - cbn [count_bits_loop] in *.
    destruct (byte =? 0); [reflexivity|].
    apply IH. rewrite Nat2Z.inj_succ, Z.pow_succ_r in Hb by lia.
    unfold wrap8. rewrite Z.shiftr_div_pow2 by lia. change (2 ^ 1) with 2.
    assert (0 <= byte / 2 < 2 ^ Z.of_nat fuel).
    { split; [apply Z.div_pos; lia|apply Z.div_lt_upper_bound; lia]. }
    pose proof (Z.mod_pos_bound (byte / 2) (2 ^ 8) ltac:(lia)).
    pose proof (Z.mod_le (byte / 2) (2 ^ 8) ltac:(lia) ltac:(lia)).
    lia.
Qed.




Lemma to_int_total_bits (hash_len : Z) :
  0 < hash_len < 2 ^ 28 -> to_int (wrap64 (hash_len * 8)) = 8 * hash_len.
Proof.
  intros H. unfold to_int, wrap64.
  rewrite (Z.mod_small (hash_len * 8)) by lia.
  rewrite Z.mod_small by lia. lia.
Qed.

(** *** The selection sort *)

Lemma nth_error_upd_same {A : Type} (a : list A) (i : nat) (v : A) :
  (i < length a)%nat -> nth_error (upd a i v) i = Some v.
Proof.
  revert i; induction a as [|x a IH]; intros [|i] Hi; cbn [length] in Hi;
    cbn [upd nth_error]; try lia; auto.
  apply IH. lia.
Qed.

Lemma nth_error_upd_other {A : Type} (a : list A) (i j : nat) (v : A) :
  i <> j -> nth_error (upd a i v) j = nth_error a j.
Proof.
  revert i j; induction a as [|x a IH]; intros [|i] [|j] Hij;
    cbn [upd nth_error]; auto; try congruence.
Qed.

Lemma swap_entries_length temp i m :
  length (swap_entries temp i m) = length temp.
Proof.
  unfold swap_entries. destruct (Nat.eqb m i); [reflexivity|].
  rewrite !upd_length. reflexivity.
Qed.

Lemma swap_entries_entry temp i m k :
  (i < length temp)%nat -> (m < length temp)%nat ->
  entry (swap_entries temp i m) k
  = if Nat.eqb k i then entry temp m
    else if Nat.eqb k m then entry temp i
         else entry temp k.
Proof.
  intros Hi Hm. unfold swap_entries, entry.
  destruct (Nat.eqb_spec m i) as [->|Hmi].
  - destruct (Nat.eqb_spec k i) as [->|]; reflexivity.
  - destruct (Nat.eqb_spec k m) as [->|Hkm].
    + destruct (Nat.eqb_spec m i); [contradiction|].
      apply nth_upd_same. rewrite upd_length. assumption.
    + rewrite nth_upd_other by congruence.
      destruct (Nat.eqb_spec k i) as [->|Hki].
      * apply nth_upd_same. assumption.
      * apply nth_upd_other. congruence.
Qed.

Lemma swap_entries_perm temp i m :
  (i < length temp)%nat -> (m < length temp)%nat ->
  Permutation temp (swap_entries temp i m).
Proof.
  intros Hi Hm. apply Permutation_nth_error. split.
  - symmetry. apply swap_entries_length.
  - exists (fun k => if Nat.eqb k i then m else if Nat.eqb k m then i else k).
    split.
    + intros x y.
      destruct (Nat.eqb_spec x i), (Nat.eqb_spec x m),
               (Nat.eqb_spec y i), (Nat.eqb_spec y m); lia.
    + intros k. unfold swap_entries.
      destruct (Nat.eqb_spec m i) as [->|Hmi].
      * destruct (Nat.eqb_spec k i) as [->|]; reflexivity.
      * destruct (Nat.eqb_spec k i) as [->|Hki].
        -- rewrite nth_error_upd_other by congruence.
           rewrite nth_error_upd_same by assumption.
           symmetry. apply nth_error_nth'. assumption.
        -- destruct (Nat.eqb_spec k m) as [->|Hkm].
           ++ rewrite nth_error_upd_same by (rewrite upd_length; assumption).
              symmetry. apply nth_error_nth'. assumption.
           ++ rewrite !nth_error_upd_other by congruence. reflexivity.
Qed.

Lemma Qgtb_false (a b : Q) : Qgtb a b = false -> (a <= b)%Q.
Proof.
  unfold Qgtb. intros H. apply negb_false_iff in H.
  apply Qle_bool_iff. assumption.
Qed.

Lemma Qgtb_true (a b : Q) : Qgtb a b = true -> (b <= a)%Q.
Proof.
  unfold Qgtb. intros H. apply negb_true_iff in H.
  apply Qlt_le_weak, Qnot_le_lt. intros Hle.
  apply Qle_bool_iff in Hle. congruence.
Qed.

(** The inner loop leaves in [max_idx] a position of the largest score among
    [temp[i .. count)]. *)
Lemma find_max_fold temp i :
  forall len s m0,
    (i <= m0 < s)%nat ->
    (forall j, (i <= j < s)%nat ->
               (similarity (entry temp j) <= similarity (entry temp m0))%Q) ->
    exists m,
      fold_left (fun max_idx j =>
                   if Qgtb (similarity (entry temp j))
                           (similarity (entry temp max_idx))
                   then j else max_idx)
                (seq s len) m0 = m
      /\ (i <= m < s + len)%nat
      /\ forall j, (i <= j < s + len)%nat ->
                   (similarity (entry temp j) <= similarity (entry temp m))%Q.
Proof.
  induction len as [|len IH]; intros s m0 Hm0 Hmax; cbn [seq fold_left].
  - exists m0. split; [reflexivity|]. split; [lia|].
    intros j Hj. apply Hmax. lia.
  - destruct (Qgtb (similarity (entry temp s)) (similarity (entry temp m0)))
      eqn:Hgt.
    + destruct (IH (S s) s) as (m & Hm & Hrange & Hle).
      * lia.
      * intros j Hj. destruct (Nat.eq_dec j s) as [->|Hne].
        -- apply Qle_refl.
        -- eapply Qle_trans; [apply Hmax; lia|]. apply Qgtb_true, Hgt.
      * exists m. split; [assumption|]. split; [lia|].
        intros j Hj. apply Hle. lia.
    + destruct (IH (S s) m0) as (m & Hm & Hrange & Hle).
      * lia.
      * intros j Hj. destruct (Nat.eq_dec j s) as [->|Hne].
        -- apply Qgtb_false, Hgt.
        -- apply Hmax. lia.
      * exists m. split; [assumption|]. split; [lia|].
        intros j Hj. apply Hle. lia.
Qed.

Lemma find_max_spec temp i count :
  (i < count)%nat ->
  (i <= find_max temp i count < count)%nat
  /\ forall j, (i <= j < count)%nat ->
               (similarity (entry temp j)
                <= similarity (entry temp (find_max temp i count)))%Q.
Proof.
  intros Hi. unfold find_max.
  destruct (find_max_fold temp i (count - (i + 1)) (i + 1) i)
    as (m & -> & Hrange & Hle).
  - lia.
  - intros j Hj. replace j with i by lia. apply Qle_refl.
  - split; [lia|]. intros j Hj. apply Hle. lia.
Qed.

(** After [k] rounds of the outer loop the first [k] entries are in their
    final place. *)
Lemma selection_sort_rounds temp :
  forall k,
    (k <= length temp - 1)%nat ->
    let count := length temp in
    let temp' := fold_left (fun temp i =>
                              swap_entries temp i (find_max temp i count))
                           (seq 0 k) temp in
    length temp' = count
    /\ Permutation temp temp'
    /\ forall a b, (a < k)%nat -> (a < b < count)%nat ->
                   (similarity (entry temp' b) <= similarity (entry temp' a))%Q.
Proof.
  cbv zeta. induction k as [|k IH]; intros Hk.
  - cbn [seq fold_left]. split; [reflexivity|]. split; [apply Permutation_refl|].
    intros a b Ha. lia.
  - rewrite seq_S, fold_left_app. cbn [fold_left Nat.add].
    destruct IH as (Hlen & Hperm & Hsorted); [lia|].
    set (t := fold_left _ (seq 0 k) temp) in *.
    destruct (find_max_spec t k (length temp)) as (Hrange & Hmax); [lia|].
    set (m := find_max t k (length temp)) in *.
    split; [rewrite swap_entries_length; assumption|].
    split.
    { eapply Permutation_trans; [exact Hperm|].
      apply swap_entries_perm; lia. }
    intros a b Ha Hb.
    rewrite !swap_entries_entry by lia.
    destruct (Nat.eqb_spec a k) as [->|Hak].
    + destruct (Nat.eqb_spec b k) as [->|Hbk]; [lia|].
      destruct (Nat.eqb_spec b m); apply Hmax; lia.
    + destruct (Nat.eqb_spec a m) as [->|Ham]; [lia|].
      destruct (Nat.eqb_spec b k) as [->|Hbk].
      * apply Hsorted; lia.
      * destruct (Nat.eqb_spec b m) as [->|Hbm]; apply Hsorted; lia.
Qed.

Lemma selection_sort_correct temp :
  descending (selection_sort temp (length temp))
  /\ Permutation temp (selection_sort temp (length temp)).
Proof.
  unfold selection_sort.
  destruct (selection_sort_rounds temp (length temp - 1)) as (Hlen & Hperm & Hs);
    [lia|].
  split; [|exact Hperm].
  intros a b Hab. rewrite Hlen in Hab. apply Hs; lia.
Qed.

(** *** The claims *)

Lemma hash_compare_empty_target (e : String.string) :
  hash_compare (Some String.EmptyString) (Some e) = 0 -> e = String.EmptyString.
Proof.
  unfold hash_compare.
  destruct (String.eqb String.EmptyString e) eqn:E; [|discriminate].
  intros _. apply String.eqb_eq in E. congruence.
Qed.

Lemma compare_scan_empty_target (db_hashes : list (option String.string))
      (db_count : Z) :
  has_empty_text db_hashes db_count = false ->
  compare_scan (Some String.EmptyString) db_hashes db_count = [].
Proof.
  intros H.
  destruct (compare_scan (Some String.EmptyString) db_hashes db_count)
    as [|i l] eqn:Hscan; [reflexivity|exfalso].
  assert (Hin : In i (compare_scan (Some String.EmptyString) db_hashes db_count))
    by (rewrite Hscan; left; reflexivity).
  apply compare_scan_in in Hin. destruct Hin as (k & e & Hk & _ & He & Hc).
  apply hash_compare_empty_target in Hc. subst e.
  unfold has_empty_text in H.
  assert (Hex : existsb (fun i => match nth i db_hashes None with
                                  | Some e => String.eqb e String.EmptyString
                                  | None => false
                                  end) (seq 0 (Z.to_nat db_count)) = true).
  { apply existsb_exists. exists k. split; [apply in_seq; lia|].
    rewrite He. reflexivity. }
  congruence.
Qed.

(** C6, as stated, fails.  Target [00], candidates [0f], [f0], [00] and
    threshold 0: the scan collects the scores 1/2, 1/2, 1 in index order; the
    first round of the sort swaps entry 0 with entry 2, which puts candidate 0
    behind candidate 1 although their scores are equal. *)
Lemma stable_tie_break_counterexample :
  batch_similarity_search (Some [0]) 1 (Some [Some [15]; Some [240]; Some [0]])
                          3 0 true true
  = (Some [ {| index := 2; similarity := 8 # 8 |};
            {| index := 1; similarity := 4 # 8 |};
            {| index := 0; similarity := 4 # 8 |} ], Some 3)
  /\ ~ ties_keep_index_order [ {| index := 2; similarity := 8 # 8 |};
                               {| index := 1; similarity := 4 # 8 |};
                               {| index := 0; similarity := 4 # 8 |} ].
Proof.
  split; [reflexivity|].
  intros H. specialize (H 1%nat 2%nat). cbn in H.
  assert (Hlt : 1 < 0); [|lia].
  apply H; [lia|reflexivity].
Qed.

(** C6, amended.  Whenever [batch_similarity_search] returns results, they
    are in descending order of score and are a rearrangement of the pairs the
    scan collected; nothing is promised about entries of equal score. *)
Theorem similarity_results_descending
        (target : list Z) (hash_len : Z) (db : list (option (list Z)))
        (db_count : Z) (threshold : Q) (count_ptr malloc_ok : bool)
        (results : list SimilarityResult) (count : option Z) :
  batch_similarity_search (Some target) hash_len (Some db) db_count threshold
                          count_ptr malloc_ok = (Some results, count) ->
  descending results
  /\ Permutation (similarity_scan target hash_len db db_count threshold) results
  /\ count = Some (Z.of_nat (length results)).
Proof.
  unfold batch_similarity_search.
  destruct ((db_count <=? 0) || negb count_ptr || (hash_len =? 0));
    [discriminate|].
  destruct (negb malloc_ok); [discriminate|].
  set (temp := similarity_scan target hash_len db db_count threshold).
  destruct (Nat.eqb (length temp) 0); [discriminate|].
  intros H. injection H as <- <-.
  destruct (selection_sort_correct temp) as [Hd Hp].
  split; [exact Hd|]. split; [exact Hp|].
  do 2 f_equal. apply (Permutation_length Hp).
Qed.

Lemma similarity_results_descending_witness :
  batch_similarity_search (Some [0]) 1 (Some [Some [15]; Some [240]; Some [0]])
                          3 0 true true
  = (Some [ {| index := 2; similarity := 8 # 8 |};
            {| index := 1; similarity := 4 # 8 |};
            {| index := 0; similarity := 4 # 8 |} ], Some 3)
  /\ descending [ {| index := 2; similarity := 8 # 8 |};
                  {| index := 1; similarity := 4 # 8 |};
                  {| index := 0; similarity := 4 # 8 |} ].
Proof.
  split; [reflexivity|].
  eapply (similarity_results_descending [0] 1 [Some [15]; Some [240]; Some [0]]
                                        3 0 true true).
  reflexivity.
Defined.

(** C8, as stated, fails: with the empty text as target and a collection whose
    only candidate is the empty text, [batch_compare_hash] reports a match at
    index 0. *)
Lemma empty_target_counterexample :
  batch_compare_hash (Some String.EmptyString) (Some [Some String.EmptyString])
                     1 true true
  = (Some [0], Some 1).
Proof. reflexivity. Qed.

(** C8, amended.  [batch_compare_hash] with the empty text as target gives
    the no-matches signal for every collection none of whose candidates is the
    empty text; [batch_compare_hash] and [batch_similarity_search] give it
    for every empty collection. *)
Theorem empty_inputs_give_no_results
        (target : option String.string)
        (db : option (list (option String.string)))
        (texts : list (option String.string))
        (starget : option (list Z)) (hash_len : Z)
        (sdb : option (list (option (list Z))))
        (db_count : Z) (threshold : Q) (count_ptr malloc_ok : bool) :
  (has_empty_text texts db_count = false ->
   batch_compare_hash (Some String.EmptyString) (Some texts) db_count
                      count_ptr malloc_ok = no_results count_ptr)
  /\ (empty_collection db db_count ->
      batch_compare_hash target db db_count count_ptr malloc_ok
      = no_results count_ptr)
  /\ (empty_collection sdb db_count ->
      batch_similarity_search starget hash_len sdb db_count threshold
                              count_ptr malloc_ok = no_results count_ptr).
Proof.
  unfold no_results. split; [|split].
  - intros H. unfold batch_compare_hash.
    destruct ((db_count <=? 0) || negb count_ptr) eqn:E; [reflexivity|].
    apply orb_false_iff in E. destruct E as [_ E].
    apply negb_false_iff in E. subst count_ptr.
    destruct (negb malloc_ok); [reflexivity|].
    rewrite compare_scan_empty_target by assumption. reflexivity.
  - intros [->|H]; unfold batch_compare_hash.
    + destruct target; reflexivity.
    + destruct target; [|reflexivity]. destruct db; [|reflexivity].
      apply Z.leb_le in H. rewrite H. reflexivity.
  - intros [->|H]; unfold batch_similarity_search.
    + destruct starget; reflexivity.
    + destruct starget; [|reflexivity]. destruct sdb; [|reflexivity].
      apply Z.leb_le in H. rewrite H. reflexivity.
Qed.

Lemma empty_inputs_give_no_results_witness :
  batch_compare_hash (Some String.EmptyString)
                     (Some [Some Reference.sample_text; None]) 2 true true
  = (None, Some 0)
  /\ batch_compare_hash (Some Reference.sample_text) (Some []) 0 true true
     = (None, Some 0)
  /\ batch_similarity_search (Some [0]) 1 (Some []) 0 (1 # 2) true true
     = (None, Some 0).
Proof.
  destruct (empty_inputs_give_no_results
              (Some Reference.sample_text) (Some [])
              [Some Reference.sample_text; None]
              (Some [0]) 1 (Some []) 0 (1 # 2) true true) as (_ & H2 & H3).
  destruct (empty_inputs_give_no_results
              None None [Some Reference.sample_text; None]
              None 1 None 2 (1 # 2) true true) as (H1 & _ & _).
  split; [apply H1; reflexivity|].
  split; [apply H2; right; discriminate|apply H3; right; discriminate].
Defined.



(** C10.  [hash_compare] answers 1 as soon as one argument is NULL, and no
    index reported by [batch_compare_hash] is that of a NULL candidate. *)
Theorem null_digest_never_matches :
  (forall hash, hash_compare None hash = 1 /\ hash_compare hash None = 1)
  /\ (forall target db db_count count_ptr malloc_ok matches count i,
        batch_compare_hash target (Some db) db_count count_ptr malloc_ok
        = (Some matches, count) ->
        In i matches ->
        exists e, nth (Z.to_nat i) db None = Some e
                  /\ hash_compare target (Some e) = 0).
Proof.
  split.
  - intros [hash|]; split; reflexivity.
  - intros target db db_count count_ptr malloc_ok matches count i H Hin.
    unfold batch_compare_hash in H.
    destruct target as [t|]; [|discriminate].
    destruct ((db_count <=? 0) || negb count_ptr); [discriminate|].
    destruct (negb malloc_ok); [discriminate|].
    destruct (Z.of_nat (length (compare_scan (Some t) db db_count)) =? 0);
      [discriminate|].
    injection H as <- _.
    apply compare_scan_in in Hin. destruct Hin as (k & e & _ & -> & He & Hc).
    exists e. rewrite Nat2Z.id. split; assumption.
Qed.

Lemma null_digest_never_matches_witness :
  exists e,
    nth (Z.to_nat 1) [None; Some Reference.sample_text] None = Some e
    /\ hash_compare (Some Reference.sample_text) (Some e) = 0.
Proof.
  apply (proj2 null_digest_never_matches
               (Some Reference.sample_text) [None; Some Reference.sample_text]
               2 true true [1] (Some 1) 1).
  - reflexivity.
  - left. reflexivity.
Defined.

End CoreFacts.

(** ** Tree hash: further properties *)

Module Blake3Extra.
Import Blake3 Blake3Spec Blake3More.

Lemma testbit_word_high (w n : Z) : is_word w -> 32 <= n -> Z.testbit w n = false.
Proof.
  intros Hw Hn. rewrite <- (Z.mod_small w (2 ^ 32)) by exact Hw.
  apply Z.mod_pow2_bits_high. lia.
Qed.

Lemma load32_store32 (w : Z) : is_word w -> load32 (store32 w) 0 = w.
Proof.
  intros Hw. unfold load32, store32, get, wrap32, wrap8.
  cbn [Nat.mul Nat.add nth].
  apply Z.bits_inj'. intros n Hn.
  rewrite !Z.lor_spec, !Z.testbit_mod_pow2 by lia.
  rewrite !Z.shiftl_spec by lia.
  rewrite !Z.testbit_mod_pow2 by lia.
  destruct (Z.ltb_spec n 32) as [H32|H32].
  - destruct (Z.ltb_spec n 8) as [H8|H8].
    + rewrite !(Z.testbit_neg_r _ (n - _)) by lia.
      rewrite !andb_false_r, !orb_false_r. reflexivity.
    + destruct (Z.ltb_spec n 16) as [H16|H16].
      * rewrite Z.shiftr_spec by lia.
        replace (n - 8 + 8) with n by lia.
        replace (n - 8 <? 8) with true by (symmetry; apply Z.ltb_lt; lia).
        rewrite !(Z.testbit_neg_r _ (n - 16)), !(Z.testbit_neg_r _ (n - 24)) by lia.
        rewrite !andb_false_r, !orb_false_r. reflexivity.
      * destruct (Z.ltb_spec n 24) as [H24|H24].
        -- rewrite (Z.shiftr_spec w 16) by lia.
           replace (n - 16 + 16) with n by lia.
           replace (n - 8 <? 8) with false by (symmetry; apply Z.ltb_ge; lia).
           replace (n - 16 <? 8) with true by (symmetry; apply Z.ltb_lt; lia).
           rewrite !(Z.testbit_neg_r _ (n - 24)) by lia.
           rewrite !andb_false_r, !orb_false_r. reflexivity.
        -- rewrite (Z.shiftr_spec w 24) by lia.
           replace (n - 24 + 24) with n by lia.
           replace (n - 8 <? 8) with false by (symmetry; apply Z.ltb_ge; lia).
           replace (n - 16 <? 8) with false by (symmetry; apply Z.ltb_ge; lia).
           replace (n - 24 <? 8) with true by (symmetry; apply Z.ltb_lt; lia).
           reflexivity.
  - rewrite (testbit_word_high w n Hw) by lia. reflexivity.
Qed.

Lemma load32_shift (a : list Z) (rest : list Z) (i : nat) :
  length a = 4%nat -> load32 (a ++ rest) (S i) = load32 rest i.
Proof.
  intros Ha. do 5 (destruct a as [|? a]; try discriminate).
  unfold load32, get.
  replace (4 * S i)%nat with (4 + 4 * i)%nat by lia.
  reflexivity.
Qed.

Lemma load32_head (w : Z) (rest : list Z) :
  load32 (store32 w ++ rest) 0 = load32 (store32 w) 0.
Proof. reflexivity. Qed.

Lemma load_words_back (ws : list Z) :
  forall rest,
    Forall is_word ws ->
    map (load32 (flat_map store32 ws ++ rest)) (seq 0 (length ws)) = ws.
Proof.
  induction ws as [|w ws IH]; intros rest Hws; [reflexivity|].
  inversion Hws as [|? ? Hw Hws']; subst.
  cbn [flat_map length seq map]. rewrite <- app_assoc.
  rewrite load32_head, load32_store32 by exact Hw. f_equal.
  rewrite <- seq_shift, map_map.
  rewrite <- (IH rest Hws') at 2.
  apply map_ext. intros i. apply load32_shift. reflexivity.
Qed.

(** X1.  The words of a parent block are the two children's chaining values:
    what [add_chunk_cv] lays out with [memcpy] is what the block loop of the
    compression function reads back. *)
Theorem parent_block_words (left right : list Z) :
  length left = 8%nat -> length right = 8%nat ->
  Forall is_word left -> Forall is_word right ->
  map (load32 (parent_block left right)) (seq 0 16) = left ++ right.
Proof.
  intros Hl Hr Fl Fr. unfold parent_block.
  rewrite !firstn_all2 by lia.
  rewrite <- flat_map_app.
  rewrite <- (app_nil_r (flat_map store32 (left ++ right))).
  replace 16%nat with (length (left ++ right)) by (rewrite length_app; lia).
  apply load_words_back. apply Forall_app. split; assumption.
Qed.

Lemma parent_block_words_witness :
  map (load32 (parent_block blake3_IV (repeat 0 8))) (seq 0 16)
  = blake3_IV ++ repeat 0 8.
Proof.
  apply parent_block_words; try reflexivity.
  - repeat constructor; unfold is_word; cbn; lia.
  - repeat constructor; unfold is_word; cbn; lia.
Defined.

(** X2.  [blake3_compress_xof] always returns 64 bytes whose first 32 are zero:
    the first eight output words are a state word xor-ed with itself.  The
    chaining value read back from any such output is the zero vector. *)
Theorem compress_xof_zero_half (cv block : list Z) (block_len counter flags : Z) :
  length (blake3_compress_xof cv block block_len counter flags) = 64%nat
  /\ firstn 32 (blake3_compress_xof cv block block_len counter flags)
     = repeat 0 32
  /\ load_cv (blake3_compress_xof cv block block_len counter flags)
     = repeat 0 8.
Proof.
  split; [apply Blake3Facts.compress_xof_length|].
  split; [|apply Blake3Facts.load_cv_compress_xof].
  destruct (Blake3Facts.compress_xof_prefix cv block block_len counter flags)
    as (rest & -> & _).
  rewrite firstn_app, repeat_length, Nat.sub_diag, firstn_O, app_nil_r.
  apply firstn_all2. rewrite repeat_length. lia.
Qed.

(** *** Chunk state *)

Lemma chunk_absorb_fields (c : blake3_chunk_state) (b : Z) :
  chunk_counter (chunk_absorb c b) = chunk_counter c
  /\ flags (chunk_absorb c b) = flags c
  /\ buf_len (chunk_absorb c b) = buf_len (chunk_flush c) + 1.
Proof.
  unfold chunk_absorb, chunk_flush.
  destruct (buf_len c =? BLAKE3_BLOCK_LEN); repeat split; reflexivity.
Qed.

Lemma fold_chunk_absorb_flags (bytes : list Z) :
  forall c, flags (fold_left chunk_absorb bytes c) = flags c.
Proof.
  induction bytes as [|b bytes IH]; intros c; [reflexivity|].
  cbn [fold_left]. rewrite IH. apply chunk_absorb_fields.
Qed.

Lemma fold_chunk_absorb_holds_back (bytes : list Z) (c : blake3_chunk_state) :
  chunk_ok c -> bytes <> [] ->
  1 <= buf_len (fold_left chunk_absorb bytes c) <= 64.
Proof.
  intros Hok Hne.
  destruct (exists_last Hne) as (front & b & ->).
  rewrite fold_left_app. cbn [fold_left].
  pose proof (Blake3Facts.fold_chunk_absorb_ok front c Hok) as Hok'.
  destruct (chunk_absorb_fields (fold_left chunk_absorb front c) b)
    as (_ & _ & ->).
  destruct (Blake3Facts.chunk_flush_ok _ Hok') as [H _]. lia.
Qed.

(** X3.  Within one chunk [chunk_state_update] accounts for every byte:
    [64 * blocks_compressed + buf_len] grows by the length of the input, the
    counter and the flags stay, and the last block, full or not, stays in the
    buffer for [chunk_state_output]. *)
Theorem chunk_state_update_accounting (c : blake3_chunk_state) (input : list Z) :
  chunk_ok c -> 0 <= blocks_compressed c <= 15 ->
  chunk_used c + Z.of_nat (length input) <= 1024 ->
  exists c',
    chunk_state_update c input = Done c'
    /\ chunk_used c' = chunk_used c + Z.of_nat (length input)
    /\ chunk_counter c' = chunk_counter c
    /\ flags c' = flags c
    /\ 0 <= blocks_compressed c' <= 15
    /\ (input <> [] -> 1 <= buf_len c' <= 64).
Proof.
  intros Hok Hbc Hfit.
  exists (fold_left chunk_absorb input c).
  split; [apply Blake3Facts.chunk_state_update_total, Hok|].
  destruct (Blake3Facts.fold_chunk_absorb_used input c Hok Hbc Hfit)
    as (_ & Hb & Hu & Hc).
  split; [exact Hu|]. split; [exact Hc|].
  split; [apply fold_chunk_absorb_flags|]. split; [exact Hb|].
  apply fold_chunk_absorb_holds_back, Hok.
Qed.

Lemma chunk_state_update_accounting_witness :
  exists c',
    chunk_state_update (chunk blake3_hasher_init) (repeat 7 128) = Done c'
    /\ chunk_used c' = 128 /\ buf_len c' = 64 /\ blocks_compressed c' = 1.
Proof.
  destruct (chunk_state_update_accounting
              (chunk blake3_hasher_init) (repeat 7 128))
    as (c' & H1 & H2 & _); [split; [cbn; lia|reflexivity]|cbn; lia|cbn; lia|].
  exists c'. split; [exact H1|].
  vm_compute in H1. injection H1 as <-. repeat split; reflexivity.
Defined.

(** *** Hasher *)

Lemma finish_chunk_fields (self self' : blake3_hasher) :
  finish_chunk self = Done self' ->
  key self' = key self /\ flags (chunk self') = flags (chunk self).
Proof.
  unfold finish_chunk. destruct (chunk_is_full (chunk self)).
  - unfold add_chunk_cv.
    destruct (add_chunk_cv_loop 64 (key self) (flags (chunk self)) (cv_stack self)
                (load_cv (chunk_state_output (chunk self)))
                (wrap64 (chunk_counter (chunk self) + 1))) as [[stack cvw]|f];
      cbn [bind]; [|discriminate].
    destruct (Z.of_nat (length stack) <? BLAKE3_MAX_DEPTH); [|discriminate].
    intros H. injection H as <-. split; reflexivity.
  - intros H. injection H as <-. split; reflexivity.
Qed.

Lemma hasher_absorb_fields (self self' : blake3_hasher) (b : Z) :
  hasher_absorb self b = Done self' ->
  key self' = key self /\ flags (chunk self') = flags (chunk self).
Proof.
  unfold hasher_absorb.
  destruct (finish_chunk self) as [s|f] eqn:E; cbn [bind]; [|discriminate].
  intros H. injection H as <-. cbn [set_chunk key chunk].
  destruct (finish_chunk_fields self s E) as [Hk Hf].
  split; [exact Hk|].
  destruct (chunk_absorb_fields (chunk s) b) as (_ & -> & _). exact Hf.
Qed.

Lemma foldM_hasher_absorb_fields (bytes : list Z) :
  forall self self',
    foldM hasher_absorb bytes self = Done self' ->
    key self' = key self /\ flags (chunk self') = flags (chunk self).
Proof.
  induction bytes as [|b bytes IH]; intros self self' H.
  - rewrite foldM_nil in H. injection H as <-. split; reflexivity.
  - rewrite foldM_cons in H.
    destruct (hasher_absorb self b) as [s|f] eqn:E; cbn [bind] in H.
    + destruct (IH s self' H) as [Hk Hf].
      destruct (hasher_absorb_fields self s b E) as [Hk' Hf'].
      split; congruence.
    + discriminate.
Qed.

(** X4.  A [blake3_hasher_update] call that returns leaves the key and the mode
    flags as they were and keeps the chunk state within its bounds. *)
Theorem blake3_hasher_update_keeps_mode
        (self self' : blake3_hasher) (input : list Z) :
  hasher_ok self -> blake3_hasher_update self input = Done self' ->
  key self' = key self /\ flags (chunk self') = flags (chunk self)
  /\ hasher_ok self'.
Proof.
  intros Hok H.
  pose proof (Blake3Facts.blake3_hasher_update_ok self self' input Hok H) as Hok'.
  rewrite Blake3Facts.blake3_hasher_update_absorb in H by exact Hok.
  destruct (foldM_hasher_absorb_fields input self self' H) as [Hk Hf].
  repeat split; try assumption; apply Hok'.
Qed.

Lemma blake3_hasher_update_keeps_mode_witness :
  exists self',
    blake3_hasher_update (blake3_hasher_init_keyed (repeat 1 32)) [1; 2; 3]
    = Done self'
    /\ key self' = key (blake3_hasher_init_keyed (repeat 1 32))
    /\ flags (chunk self') = KEYED_HASH.
Proof.
  eexists. split; [vm_compute; reflexivity|].
  match goal with
  | |- key ?s = _ /\ _ =>
      destruct (blake3_hasher_update_keeps_mode
                  (blake3_hasher_init_keyed (repeat 1 32)) s [1; 2; 3])
        as (Hk & Hf & _);
      [split; [split; [cbn; lia|reflexivity]|cbn; lia]
      |vm_compute; reflexivity|]
  end.
  split; [exact Hk|exact Hf].
Defined.

Lemma update_one_chunk (self : blake3_hasher) (input : list Z) :
  hasher_ok self -> cv_stack self = [] -> chunk_counter (chunk self) = 0 ->
  blake3_hasher_update self input
  = if chunk_used (chunk self) + Z.of_nat (length input) <=? 1024
    then Done (set_chunk self (fold_left chunk_absorb input (chunk self)))
    else Fault StackUnderflow.
Proof.
  intros Hok Hstack Hctr.
  destruct (Z.leb_spec (chunk_used (chunk self) + Z.of_nat (length input)) 1024)
    as [Hfit|Hover].
  - rewrite Blake3Facts.blake3_hasher_update_absorb by exact Hok.
    apply Blake3Facts.foldM_hasher_absorb_fit; assumption.
  - pose proof (Blake3Facts.chunk_used_bound (chunk self) (proj1 Hok) (proj2 Hok))
      as Hused.
    set (room := Z.to_nat (1024 - chunk_used (chunk self))).
    rewrite <- (firstn_skipn room input).
    rewrite Blake3Facts.blake3_hasher_update_app by exact Hok.
    assert (Hfirst : Z.of_nat (length (firstn room input))
                     = 1024 - chunk_used (chunk self))
      by (rewrite length_firstn; unfold room; lia).
    rewrite Blake3Facts.blake3_hasher_update_absorb by exact Hok.
    rewrite Blake3Facts.foldM_hasher_absorb_fit by (try assumption; lia).
    cbn [bind].
    destruct (skipn room input) as [|b rest] eqn:Hrest.
    { apply (f_equal (@length Z)) in Hrest. rewrite length_skipn in Hrest.
      cbn [length] in Hrest. unfold room in Hrest. lia. }
    set (c := fold_left chunk_absorb (firstn room input) (chunk self)).
    destruct (Blake3Facts.fold_chunk_absorb_used (firstn room input) (chunk self))
      as (Hc & Hbc & Hu & Hcc); [apply Hok|apply Hok|lia|].
    fold c in Hc, Hbc, Hu, Hcc.
    assert (Hok' : hasher_ok (set_chunk self c)) by (split; assumption).
    rewrite Blake3Facts.blake3_hasher_update_absorb by assumption.
    rewrite foldM_cons.
    assert (Hfin : finish_chunk (set_chunk self c) = Fault StackUnderflow).
    { unfold finish_chunk. cbn [set_chunk chunk].
      replace (chunk_is_full c) with true.
      2:{ symmetry. apply Blake3Facts.chunk_is_full_used; [assumption..|]. lia. }
      rewrite Hcc, Hctr. change (wrap64 (0 + 1)) with 1.
      rewrite Blake3Facts.add_chunk_cv_underflow by exact Hstack. reflexivity. }
    unfold hasher_absorb. rewrite Hfin. reflexivity.
Qed.

(** X5.  From a state with an empty stack and chunk counter 0 (as every [init]
    function leaves it) [blake3_hasher_update] returns exactly when the bytes
    fed so far still fit the first chunk; it then has only filled the chunk
    state.  With the first byte beyond 1024 it pops the empty stack. *)
Theorem update_returns_iff_one_chunk (self : blake3_hasher) (input : list Z) :
  hasher_ok self -> cv_stack self = [] -> chunk_counter (chunk self) = 0 ->
  (chunk_used (chunk self) + Z.of_nat (length input) <= 1024 ->
   exists c,
     blake3_hasher_update self input = Done (set_chunk self c)
     /\ chunk_counter c = 0
     /\ chunk_used c = chunk_used (chunk self) + Z.of_nat (length input))
  /\ (1024 < chunk_used (chunk self) + Z.of_nat (length input) ->
      blake3_hasher_update self input = Fault StackUnderflow).
Proof.
  intros Hok Hstack Hctr.
  rewrite (update_one_chunk self input Hok Hstack Hctr). split.
  - intros Hfit.
    replace (chunk_used (chunk self) + Z.of_nat (length input) <=? 1024)
      with true by (symmetry; apply Z.leb_le; lia).
    exists (fold_left chunk_absorb input (chunk self)).
    destruct (Blake3Facts.fold_chunk_absorb_used input (chunk self))
      as (_ & _ & Hu & Hc); [apply Hok|apply Hok|lia|].
    split; [reflexivity|]. split; [congruence|exact Hu].
  - intros Hover.
    replace (chunk_used (chunk self) + Z.of_nat (length input) <=? 1024)
      with false by (symmetry; apply Z.leb_gt; lia).
    reflexivity.
Qed.

Lemma update_returns_iff_one_chunk_witness :
  blake3_hasher_update (blake3_hasher_init_keyed (repeat 1 32)) (repeat 5 1025)
  = Fault StackUnderflow.
Proof.
  apply (update_returns_iff_one_chunk
           (blake3_hasher_init_keyed (repeat 1 32)) (repeat 5 1025)).
  - split; [split; [cbn; lia|reflexivity]|cbn; lia].
  - reflexivity.
  - reflexivity.
  - vm_compute. reflexivity.
Defined.

(** *** Output *)




















(** *** Key derivation *)

(** X11.  [blake3_hasher_init_derive_key] does not depend on its context string:
    for every context of at most 1024 bytes it returns the keyed hasher of
    the all-zero key with the key-material flag added, and for every longer
    context the update of the context hasher pops its empty stack. *)
Theorem derive_key_ignores_context (context : list Z) (oob : Z -> list Z) :
  blake3_hasher_init_derive_key context oob
  = if Z.of_nat (length context) <=? 1024
    then Done (set_chunk
                 (blake3_hasher_init_keyed (repeat 0 32))
                 (set_chunk_flags
                    (chunk (blake3_hasher_init_keyed (repeat 0 32)))
                    (Z.lor KEYED_HASH DERIVE_KEY_MATERIAL)))
    else Fault StackUnderflow.
Proof.
  unfold blake3_hasher_init_derive_key. cbv zeta.
  rewrite update_one_chunk;
    [|split; [split; [cbn; lia|reflexivity]|cbn; lia]|reflexivity|reflexivity].
  change (chunk_used _ + Z.of_nat (length context))
    with (0 + Z.of_nat (length context)).
  rewrite Z.add_0_l.
  destruct (Z.of_nat (length context) <=? 1024); [|reflexivity].
  cbn [bind]. change BLAKE3_KEY_LEN with 32.
  rewrite Blake3Facts.finalize_32_zero. reflexivity.
Qed.

End Blake3Extra.


(** ** Further properties of the batch matching layer *)

Module CoreExtra.
Import Core CoreSpec CoreMore.

(** *** Bytes, bit counts, Hamming distance *)

(** A property checked on the 256 byte values holds of every byte. *)
Lemma forall_bytes (P : Z -> bool) :
  forallb P (map Z.of_nat (seq 0 256)) = true ->
  forall b, is_byte b -> P b = true.
Proof.
  intros H b [Hlo Hhi]. rewrite forallb_forall in H. apply H.
  apply in_map_iff. exists (Z.to_nat b). split; [lia|].
  apply in_seq. lia.
Qed.

Lemma wrap8_is_byte (x : Z) : is_byte (wrap8 x).
Proof. unfold is_byte, wrap8. apply Z.mod_pos_bound. lia. Qed.

Lemma count_bits_byte (b : Z) :
  is_byte b -> count_bits b = popcount8 b /\ 0 <= count_bits b <= 8.
Proof.
  intros Hb.
  pose proof (forall_bytes
                (fun b => (count_bits b =? popcount8 b)
                          && (0 <=? count_bits b) && (count_bits b <=? 8))
                ltac:(vm_compute; reflexivity) b Hb) as H.
  cbv beta in H. apply andb_true_iff in H. destruct H as [H H3].
  apply andb_true_iff in H. destruct H as [H1 H2].
  apply Z.eqb_eq in H1. apply Z.leb_le in H2. apply Z.leb_le in H3. lia.
Qed.



(** The distance is the sum of the bit counts of the byte differences. *)
Lemma hamming_fold (hash1 hash2 : list Z) :
  forall l acc,
    fold_left (fun distance i =>
                 let diff := wrap8 (Z.lxor (get hash1 i) (get hash2 i)) in
                 distance + count_bits diff) l acc
    = acc + fold_right Z.add 0 (map (byte_distance hash1 hash2) l).
Proof.
  induction l as [|i l IH]; intros acc; cbn [fold_left map fold_right].
  - lia.
  - rewrite IH. unfold byte_distance at 2. lia.
Qed.

Lemma hamming_sum (hash1 hash2 : list Z) (len : Z) :
  hash_hamming_distance (Some hash1) (Some hash2) len
  = fold_right Z.add 0 (map (byte_distance hash1 hash2) (seq 0 (Z.to_nat len))).
Proof. unfold hash_hamming_distance. rewrite hamming_fold. lia. Qed.

Lemma byte_distance_bounds hash1 hash2 i :
  0 <= byte_distance hash1 hash2 i <= 8.
Proof.
  unfold byte_distance. apply count_bits_byte, wrap8_is_byte.
Qed.


Lemma sum_zero_iff (F : nat -> Z) (l : list nat) :
  (forall i, 0 <= F i) ->
  (fold_right Z.add 0 (map F l) = 0 <-> forall i, In i l -> F i = 0).
Proof.
  intros HF. induction l as [|i l IH]; cbn [map fold_right].
  - split; [intros _ i []|reflexivity].
  - assert (0 <= fold_right Z.add 0 (map F l)).
    { clear IH. induction l as [|j l IH]; cbn [map fold_right];
        [lia|specialize (HF j); lia]. }
    pose proof (HF i). split.
    + intros Hs j [<-|Hj]; [lia|]. apply IH; [lia|assumption].
    + intros Hall. rewrite (Hall i) by (left; reflexivity).
      rewrite (proj2 IH); [lia|]. intros j Hj. apply Hall. right. assumption.
Qed.



(** X12.  [count_bits] returns the number of set bits of its argument taken
    as a [uint8_t], a number between 0 and 8. *)
Theorem count_bits_is_popcount (byte : Z) :
  count_bits byte = popcount8 (wrap8 byte) /\ 0 <= count_bits byte <= 8.
Proof.
  assert (E : count_bits byte = count_bits (wrap8 byte)).
  { unfold count_bits, wrap8. rewrite Z.mod_mod by lia. reflexivity. }
  rewrite E. apply count_bits_byte, wrap8_is_byte.
Qed.

(** X13.  The Hamming distance does not depend on the order of its two
    arguments, and the distance from a digest to itself is 0. *)
Theorem hamming_distance_symmetric (hash1 hash2 : option (list Z)) (len : Z) :
  hash_hamming_distance hash1 hash2 len = hash_hamming_distance hash2 hash1 len
  /\ forall hash, hash_hamming_distance (Some hash) (Some hash) len = 0.
Proof.
  split.
  - destruct hash1 as [a|], hash2 as [b|]; try reflexivity.
    rewrite !hamming_sum. f_equal. apply map_ext. intros i.
    unfold byte_distance. rewrite Z.lxor_comm. reflexivity.
  - intros hash. rewrite hamming_sum.
    apply sum_zero_iff; [intros i; apply byte_distance_bounds|].
    intros i _. unfold byte_distance. rewrite Z.lxor_nilpotent. reflexivity.
Qed.





(** *** Digest encoding *)

Lemma string_of_list_ascii_length (l : list ascii) :
  String.length (String.string_of_list_ascii l) = length l.
Proof. induction l as [|c l IH]; cbn; [reflexivity|rewrite IH; reflexivity]. Qed.

Lemma hex_digit_in (n : Z) : In (hex_digit n) hex_alphabet.
Proof.
  unfold hex_digit. fold hex_alphabet.
  destruct (Nat.lt_ge_cases (Z.to_nat n) (length hex_alphabet)) as [H|H].
  - apply nth_In, H.
  - rewrite nth_overflow by assumption. left. reflexivity.
Qed.

Lemma hex_alphabet_NoDup : NoDup hex_alphabet.
Proof.
  unfold hex_alphabet.
  repeat (constructor; [cbn; intuition discriminate|]). constructor.
Qed.

Lemma hex_digit_inj (x y : Z) :
  0 <= x < 16 -> 0 <= y < 16 -> hex_digit x = hex_digit y -> x = y.
Proof.
  intros Hx Hy H. unfold hex_digit in H. fold hex_alphabet in H.
  pose proof (proj1 (NoDup_nth hex_alphabet "0"%char) hex_alphabet_NoDup
                    (Z.to_nat x) (Z.to_nat y)) as Hinj.
  cbn [length hex_alphabet] in Hinj.
  assert (Z.to_nat x = Z.to_nat y) by (apply Hinj; [lia|lia|exact H]).
  lia.
Qed.

Lemma hex_byte_inj (a b : Z) :
  is_byte a -> is_byte b -> hex_byte a = hex_byte b -> a = b.
Proof.
  unfold is_byte. intros Ha Hb H. unfold hex_byte in H.
  rewrite !wrap8_small in H by lia.
  injection H as H1 H2.
  apply hex_digit_inj in H1;
    [|split; [apply Z.div_pos; lia|apply Z.div_lt_upper_bound; lia]..].
  apply hex_digit_inj in H2; [|apply Z.mod_pos_bound; lia..].
  rewrite (Z.div_mod a 16), (Z.div_mod b 16) by lia. congruence.
Qed.

Lemma map_get_seq (a : list Z) :
  map (get a) (seq 0 (length a)) = a.
Proof.
  induction a as [|x a IH]; [reflexivity|].
  cbn [length seq map]. f_equal.
  rewrite <- seq_shift, map_map. exact IH.
Qed.

Lemma flat_map_after_map {A B C : Type} (g : A -> B) (k : B -> list C)
      (l : list A) :
  flat_map k (map g l) = flat_map (fun x => k (g x)) l.
Proof.
  induction l as [|x l IH]; cbn [map flat_map]; [reflexivity|].
  rewrite IH. reflexivity.
Qed.

Lemma hex_text_of_bytes (a : list Z) :
  bytes_to_hex a (Z.of_nat (length a))
  = String.string_of_list_ascii (flat_map hex_byte a).
Proof.
  unfold bytes_to_hex. rewrite Nat2Z.id. f_equal.
  rewrite <- (map_get_seq a) at 2. rewrite flat_map_after_map. reflexivity.
Qed.

Lemma flat_map_hex_byte_inj :
  forall a b,
    Forall is_byte a -> Forall is_byte b ->
    flat_map hex_byte a = flat_map hex_byte b -> a = b.
Proof.
  induction a as [|x a IH]; intros [|y b] Ha Hb H; cbn [flat_map] in H.
  - reflexivity.
  - discriminate.
  - discriminate.
  - inversion Ha as [|? ? Hx Ha']; subst.
    inversion Hb as [|? ? Hy Hb']; subst.
    unfold hex_byte at 1 3 in H. cbn [app] in H.
    injection H as E1 E2 E3.
    assert (x = y) by (apply hex_byte_inj; [assumption..|]; unfold hex_byte;
                       congruence).
    subst y. f_equal. apply IH; assumption.
Qed.

Lemma string_of_list_ascii_inj (l1 l2 : list ascii) :
  String.string_of_list_ascii l1 = String.string_of_list_ascii l2 -> l1 = l2.
Proof.
  intros H. apply (f_equal String.list_ascii_of_string) in H.
  rewrite !String.list_ascii_of_string_of_list_ascii in H. exact H.
Qed.

Lemma hex_text_shape (g : nat -> Z) (l : list nat) :
  length (flat_map (fun i => hex_byte (g i)) l) = (2 * length l)%nat
  /\ Forall (fun c => In c hex_alphabet)
            (flat_map (fun i => hex_byte (g i)) l).
Proof.
  induction l as [|i l [IH1 IH2]]; cbn [flat_map length].
  - split; [reflexivity|constructor].
  - unfold hex_byte at 1 3. cbn [app length]. split; [lia|].
    repeat (constructor; [apply hex_digit_in|]). exact IH2.
Qed.

(** X16.  [bytes_to_hex] writes two characters per byte, all of them
    lowercase hexadecimal digits. *)
Theorem bytes_to_hex_shape (bytes : list Z) (len : Z) :
  Z.of_nat (String.length (bytes_to_hex bytes len)) = 2 * Z.max 0 len
  /\ Forall (fun c => In c hex_alphabet)
            (String.list_ascii_of_string (bytes_to_hex bytes len)).
Proof.
  unfold bytes_to_hex.
  rewrite string_of_list_ascii_length,
          String.list_ascii_of_string_of_list_ascii.
  destruct (hex_text_shape (get bytes) (seq 0 (Z.to_nat len))) as [H1 H2].
  split; [|exact H2]. unfold get in *. rewrite H1, length_seq. lia.
Qed.

(** X17.  The hex text determines the digest: the texts of two digests of
    [n] bytes compare equal under [hash_compare] exactly when the digests are
    the same. *)
Theorem hex_text_compare_iff_equal (hash1 hash2 : list Z) (n : nat) :
  length hash1 = n -> length hash2 = n ->
  Forall is_byte hash1 -> Forall is_byte hash2 ->
  (hash_compare (Some (bytes_to_hex hash1 (Z.of_nat n)))
                (Some (bytes_to_hex hash2 (Z.of_nat n))) = 0
   <-> hash1 = hash2).
Proof.
  intros L1 L2 B1 B2. subst n. rewrite hex_text_of_bytes.
  rewrite <- L2, hex_text_of_bytes. unfold hash_compare. split.
  - destruct (String.eqb _ _) eqn:E; [|discriminate]. intros _.
    apply String.eqb_eq in E.
    apply flat_map_hex_byte_inj; try assumption.
    apply string_of_list_ascii_inj, E.
  - intros ->. rewrite String.eqb_refl. reflexivity.
Qed.

Lemma hex_text_compare_iff_equal_witness :
  hash_compare (Some (bytes_to_hex [171; 205] (Z.of_nat 2)))
               (Some (bytes_to_hex [171; 205] (Z.of_nat 2))) = 0
  <-> [171; 205] = [171; 205].
Proof.
  apply (hex_text_compare_iff_equal [171; 205] [171; 205] 2);
    try reflexivity;
    repeat constructor; unfold is_byte; lia.
Defined.

(** *** Exact matching *)

Lemma compare_hit_is_match target db i :
  compare_hit (Some target) db i
  = if is_match target db i then [Z.of_nat i] else [].
Proof.
  unfold compare_hit, is_match, hash_compare.
  destruct (nth i db None) as [e|]; [|reflexivity].
  destruct (String.eqb target e); reflexivity.
Qed.

Lemma compare_scan_filter target db db_count :
  compare_scan (Some target) db db_count
  = map Z.of_nat (filter (is_match target db) (seq 0 (Z.to_nat db_count))).
Proof.
  rewrite CoreFacts.compare_scan_flat_map.
  induction (seq 0 (Z.to_nat db_count)) as [|i l IH];
    cbn [flat_map filter map]; [reflexivity|].
  rewrite compare_hit_is_match, IH.
  destruct (is_match target db i); reflexivity.
Qed.

(** X18.  With valid arguments [batch_compare_hash] returns exactly the
    positions below [db_count] whose candidate is present and equal to the
    target, in ascending order, and their number; when there is none it
    returns NULL and the count 0. *)
Theorem batch_compare_hash_exact
        (target : String.string) (db : list (option String.string))
        (db_count : Z) :
  0 < db_count ->
  batch_compare_hash (Some target) (Some db) db_count true true
  = match filter (is_match target db) (seq 0 (Z.to_nat db_count)) with
    | [] => (None, Some 0)
    | hits => (Some (map Z.of_nat hits), Some (Z.of_nat (length hits)))
    end.
Proof.
  intros Hc. unfold batch_compare_hash.
  replace (db_count <=? 0) with false by (symmetry; apply Z.leb_gt; lia).
  cbn [negb orb]. rewrite compare_scan_filter.
  destruct (filter (is_match target db) (seq 0 (Z.to_nat db_count)))
    as [|i hits]; [reflexivity|].
  rewrite length_map. cbn [length].
  replace (Z.of_nat (S (length hits)) =? 0) with false
    by (symmetry; apply Z.eqb_neq; lia).
  reflexivity.
Qed.

Lemma batch_compare_hash_exact_witness :
  batch_compare_hash (Some Reference.sample_text)
                     (Some [None; Some Reference.sample_text;
                            Some String.EmptyString;
                            Some Reference.sample_text]) 4 true true
  = (Some [1; 3], Some 2).
Proof.
  rewrite batch_compare_hash_exact by lia. reflexivity.
Defined.

(** *** Similarity search *)


Lemma similarity_of_zero (T : Z) : 0 < T -> (similarity_of 0 T == 1)%Q.
Proof.
  intros HT. unfold similarity_of.
  destruct T as [|p|p]; try lia.
  unfold Qeq, Qminus, Qplus, Qopp, Qdiv, Qmult, Qinv, inject_Z.
  cbn [Qnum Qden Pos.mul]. lia.
Qed.




(** X20.  Searching a collection that holds only the target itself, with any
    threshold up to 1, returns the single entry of index 0 and score 1. *)
Theorem self_similarity_is_one (target : list Z) (hash_len : Z) (threshold : Q) :
  0 < hash_len < 2 ^ 28 ->
  (threshold <= 1)%Q ->
  exists score,
    batch_similarity_search (Some target) hash_len (Some [Some target]) 1
                            threshold true true
    = (Some [{| index := 0; similarity := score |}], Some 1)
    /\ (score == 1)%Q.
Proof.
  intros Hlen Hth.
  exists (similarity_of 0 (8 * hash_len)).
  split; [|apply similarity_of_zero; lia].
  assert (Hd : hash_hamming_distance (Some target) (Some target) hash_len = 0).
  { rewrite hamming_sum.
    apply sum_zero_iff; [intros i; apply byte_distance_bounds|].
    intros i _. unfold byte_distance. rewrite Z.lxor_nilpotent. reflexivity. }
  assert (Hscan : similarity_scan target hash_len [Some target] 1 threshold
                  = [{| index := 0;
                        similarity := similarity_of 0 (8 * hash_len) |}]).
  { rewrite CoreFacts.similarity_scan_flat_map.
    change (seq 0 (Z.to_nat 1)) with [0%nat]. cbn [flat_map].
    rewrite app_nil_r. unfold similarity_hit.
    change (nth 0 [Some target] None) with (Some target).
    cbv beta iota zeta. rewrite Hd. change (0 <? 0) with false. cbv iota.
    rewrite CoreFacts.to_int_total_bits by assumption.
    replace (Qle_bool threshold (similarity_of 0 (8 * hash_len))) with true;
      [reflexivity|].
    symmetry. apply Qle_bool_iff.
    rewrite (similarity_of_zero (8 * hash_len)) by lia. exact Hth. }
  unfold batch_similarity_search.
  replace (hash_len =? 0) with false by (symmetry; apply Z.eqb_neq; lia).
  change (1 <=? 0) with false. cbn [negb orb].
  rewrite Hscan. reflexivity.
Qed.

Lemma self_similarity_is_one_witness :
  exists score,
    batch_similarity_search (Some [7; 9]) 2 (Some [Some [7; 9]]) 1 1 true true
    = (Some [{| index := 0; similarity := score |}], Some 1)
    /\ (score == 1)%Q.
Proof.
  apply (self_similarity_is_one [7; 9] 2 1); [lia|].
  unfold Qle. cbn. lia.
Defined.

(** *** Batch hashing *)

Lemma batch_hash_loop_short strings malloc_item oob :
  forall n i results,
    (forall j, (i <= j < i + n)%nat ->
               short_string strings j /\ malloc_item j = true) ->
    batch_hash_loop strings malloc_item oob i n results
    = Done (Some (results ++ repeat Reference.zero_hex_64 n)).
Proof.
  induction n as [|n IH]; intros i results H; cbn [batch_hash_loop repeat].
  - rewrite app_nil_r. reflexivity.
  - destruct (H i ltac:(lia)) as [(input & Hin & Hlen) Hm].
    rewrite Hin, Hm.
    rewrite Blake3Facts.blake3_hash_string_first_chunk by assumption.
    cbn [bind]. rewrite IH by (intros j Hj; apply H; lia).
    rewrite <- app_assoc. reflexivity.
Qed.

Lemma batch_hash_loop_null strings malloc_item oob (k : nat) :
  nth k strings None = None
  \/ (short_string strings k /\ malloc_item k = false) ->
  forall n i results,
    (i <= k < i + n)%nat ->
    (forall j, (i <= j < k)%nat ->
               short_string strings j /\ malloc_item j = true) ->
    batch_hash_loop strings malloc_item oob i n results = Done None.
Proof.
  intros Hk. induction n as [|n IH]; intros i results Hr H; [lia|].
  cbn [batch_hash_loop].
  destruct (Nat.eq_dec i k) as [->|Hne].
  - destruct Hk as [Hk|[(input & Hin & Hlen) Hm]].
    + rewrite Hk. reflexivity.
    + rewrite Hin, Hm. unfold blake3_hash_string.
      change DETECTIVE_HASH_LEN with 32.
      rewrite Blake3Facts.blake3_first_chunk by assumption. reflexivity.
  - destruct (H i ltac:(lia)) as [(input & Hin & Hlen) Hm].
    rewrite Hin, Hm.
    rewrite Blake3Facts.blake3_hash_string_first_chunk by assumption.
    cbn [bind]. apply IH; [lia|]. intros j Hj. apply H. lia.
Qed.

(** X21.  [batch_hash_strings] over [count] strings of at most 1024 bytes
    each, with every allocation succeeding, returns [count] texts, every one
    of them the 64 characters ['0']. *)
Theorem batch_hash_strings_short
        (strings : list (option (list Z))) (count : Z)
        (malloc_item : nat -> bool) (oob : nat -> Z -> list Z) :
  0 < count ->
  (forall j, (j < Z.to_nat count)%nat ->
             short_string strings j /\ malloc_item j = true) ->
  batch_hash_strings (Some strings) count true malloc_item oob
  = Done (Some (repeat Reference.zero_hex_64 (Z.to_nat count))).
Proof.
  intros Hc H. unfold batch_hash_strings.
  replace (count <=? 0) with false by (symmetry; apply Z.leb_gt; lia).
  cbn [negb]. rewrite batch_hash_loop_short; [reflexivity|].
  intros j Hj. apply H. lia.
Qed.

Lemma batch_hash_strings_short_witness :
  batch_hash_strings (Some [Some Reference.abc; Some Reference.hello_world]) 2
                     true (fun _ => true) (fun _ _ => repeat 0 32)
  = Done (Some [Reference.zero_hex_64; Reference.zero_hex_64]).
Proof.
  apply (batch_hash_strings_short
           [Some Reference.abc; Some Reference.hello_world] 2
           (fun _ => true) (fun _ _ => repeat 0 32)).
  - lia.
  - intros j Hj. split; [|reflexivity].
    destruct j as [|[|j]].
    + exists Reference.abc. split; [reflexivity|cbn; lia].
    + exists Reference.hello_world. split; [reflexivity|cbn; lia].
    + cbn in Hj. lia.
Defined.

(** X22.  One NULL entry, or one failed allocation of a text, makes
    [batch_hash_strings] return NULL for the whole batch (the entries before
    it being strings of at most 1024 bytes that hashed normally). *)
Theorem batch_hash_strings_all_or_nothing
        (strings : list (option (list Z))) (count : Z) (malloc_array : bool)
        (malloc_item : nat -> bool) (oob : nat -> Z -> list Z) (k : nat) :
  (k < Z.to_nat count)%nat ->
  nth k strings None = None
  \/ (short_string strings k /\ malloc_item k = false) ->
  (forall j, (j < k)%nat -> short_string strings j /\ malloc_item j = true) ->
  batch_hash_strings (Some strings) count malloc_array malloc_item oob
  = Done None.
Proof.
  intros Hk Hbad H. unfold batch_hash_strings.
  destruct (count <=? 0); [reflexivity|].
  destruct (negb malloc_array); [reflexivity|].
  apply (batch_hash_loop_null strings malloc_item oob k Hbad); [lia|].
  intros j Hj. apply H. lia.
Qed.

Lemma batch_hash_strings_all_or_nothing_witness :
  batch_hash_strings (Some [Some Reference.abc; None; Some Reference.abc]) 3
                     true (fun _ => true) (fun _ _ => repeat 0 32)
  = Done None.
Proof.
  apply (batch_hash_strings_all_or_nothing
           [Some Reference.abc; None; Some Reference.abc] 3 true
           (fun _ => true) (fun _ _ => repeat 0 32) 1).
  - cbn. lia.
  - left. reflexivity.
  - intros j Hj. split; [|reflexivity].
    destruct j as [|j]; [|lia].
    exists Reference.abc. split; [reflexivity|cbn; lia].
Defined.

(** X23.  The texts [blake3_hash_string] returns for any two strings of at
    most 1024 bytes are reported as identical by [hash_compare]. *)
Theorem short_strings_compare_equal
        (input1 input2 : list Z) (oob1 oob2 : Z -> list Z) :
  Z.of_nat (length input1) <= 1024 ->
  Z.of_nat (length input2) <= 1024 ->
  exists hash1 hash2,
    blake3_hash_string (Some input1) true oob1 = Done (Some hash1)
    /\ blake3_hash_string (Some input2) true oob2 = Done (Some hash2)
    /\ hash_compare (Some hash1) (Some hash2) = 0.
Proof.
  intros H1 H2. exists Reference.zero_hex_64, Reference.zero_hex_64.
  rewrite !Blake3Facts.blake3_hash_string_first_chunk by assumption.
  repeat split.
Qed.

Lemma short_strings_compare_equal_witness :
  exists hash1 hash2,
    blake3_hash_string (Some Reference.abc) true (fun _ => repeat 0 32)
    = Done (Some hash1)
    /\ blake3_hash_string (Some Reference.hello_world) true
                          (fun _ => repeat 0 32) = Done (Some hash2)
    /\ hash_compare (Some hash1) (Some hash2) = 0.
Proof.
  apply short_strings_compare_equal; cbn; lia.
Defined.




End CoreExtra.


(** ** Further properties of the sequential hash *)

Module Blake2bExtra.
Import Blake2b Blake2bSpec.

(** *** What the helpers leave alone *)

Lemma add_counter_fields (st : blake2b_state) (n : Z) :
  h (add_counter st n) = h st /\ f (add_counter st n) = f st
  /\ buf (add_counter st n) = buf st /\ buflen (add_counter st n) = buflen st
  /\ outlen (add_counter st n) = outlen st.
Proof.
  unfold add_counter. destruct (_ <? n); repeat split.
Qed.

Lemma add_counter_t_congr (st1 st2 : blake2b_state) (n : Z) :
  t st1 = t st2 -> t (add_counter st1 n) = t (add_counter st2 n).
Proof.
  intros E. unfold add_counter. cbn [t set_t]. rewrite E.
  destruct (_ <? n); reflexivity.
Qed.

Lemma compress_fields (st : blake2b_state) (block : list Z) :
  t (blake2b_compress st block) = t st /\ f (blake2b_compress st block) = f st
  /\ buf (blake2b_compress st block) = buf st
  /\ buflen (blake2b_compress st block) = buflen st
  /\ outlen (blake2b_compress st block) = outlen st
  /\ length (h (blake2b_compress st block)) = 8%nat.
Proof.
  unfold blake2b_compress. cbn [t f buf buflen outlen h set_h].
  rewrite length_map, length_seq. repeat split.
Qed.

Lemma compress_h_congr (st1 st2 : blake2b_state) (block : list Z) :
  h st1 = h st2 -> t st1 = t st2 -> f st1 = f st2 ->
  h (blake2b_compress st1 block) = h (blake2b_compress st2 block).
Proof.
  intros E1 E2 E3. unfold blake2b_compress. cbn [h set_h].
  rewrite E1, E2, E3. reflexivity.
Qed.

(** Counting a block and compressing it. *)
Lemma block_step_fields (st : blake2b_state) (block : list Z) :
  f (blake2b_compress (add_counter st 128) block) = f st
  /\ buf (blake2b_compress (add_counter st 128) block) = buf st
  /\ buflen (blake2b_compress (add_counter st 128) block) = buflen st
  /\ outlen (blake2b_compress (add_counter st 128) block) = outlen st
  /\ length (h (blake2b_compress (add_counter st 128) block)) = 8%nat.
Proof.
  destruct (compress_fields (add_counter st 128) block)
    as (_ & E2 & E3 & E4 & E5 & E6).
  destruct (add_counter_fields st 128) as (_ & F2 & F3 & F4 & F5).
  rewrite E2, E3, E4, E5, F2, F3, F4, F5.
  split; [reflexivity|]. split; [reflexivity|]. split; [reflexivity|].
  split; [reflexivity|exact E6].
Qed.

Lemma block_step_congr (st1 st2 : blake2b_state) (block : list Z) :
  h st1 = h st2 -> t st1 = t st2 -> f st1 = f st2 ->
  h (blake2b_compress (add_counter st1 128) block)
  = h (blake2b_compress (add_counter st2 128) block)
  /\ t (blake2b_compress (add_counter st1 128) block)
     = t (blake2b_compress (add_counter st2 128) block).
Proof.
  intros E1 E2 E3.
  destruct (add_counter_fields st1 128) as (A1 & A2 & _).
  destruct (add_counter_fields st2 128) as (B1 & B2 & _).
  pose proof (add_counter_t_congr st1 st2 128 E2) as Et.
  split.
  - apply compress_h_congr; congruence.
  - destruct (compress_fields (add_counter st1 128) block) as (-> & _).
    destruct (compress_fields (add_counter st2 128) block) as (-> & _).
    exact Et.
Qed.

(** *** Byte-wise absorption *)

Lemma flush_small (st : blake2b_state) : buflen st <> 128 -> flush st = st.
Proof.
  intros H. unfold flush.
  destruct (buflen st =? 128) eqn:E; [apply Z.eqb_eq in E; contradiction|].
  reflexivity.
Qed.

Lemma flush_ok (st : blake2b_state) :
  state_ok st ->
  0 <= buflen (flush st) < 128 /\ length (buf (flush st)) = 128%nat.
Proof.
  intros [Hb Hl]. unfold flush.
  destruct (buflen st =? 128) eqn:E.
  - cbn [buflen buf set_buflen].
    destruct (block_step_fields st (buf st)) as (_ & -> & _).
    split; [lia|assumption].
  - apply Z.eqb_neq in E. split; [lia|assumption].
Qed.

Lemma flush_idem (st : blake2b_state) :
  state_ok st -> flush (flush st) = flush st.
Proof.
  intros H. apply flush_small. destruct (flush_ok st H). lia.
Qed.

Lemma absorb_ok (st : blake2b_state) (b : Z) :
  state_ok st -> state_ok (absorb st b).
Proof.
  intros H. destruct (flush_ok st H) as [Hb Hl].
  unfold absorb, state_ok. cbn [buflen buf set_buflen set_buf].
  rewrite upd_length. split; [lia|assumption].
Qed.

Lemma fold_absorb_ok (bytes : list Z) :
  forall st, state_ok st -> state_ok (fold_left absorb bytes st).
Proof.
  induction bytes as [|b bytes IH]; intros st H; cbn [fold_left]; auto.
  apply IH, absorb_ok, H.
Qed.

Lemma fold_absorb_flush (bytes : list Z) (st : blake2b_state) :
  state_ok st -> bytes <> [] ->
  fold_left absorb bytes (flush st) = fold_left absorb bytes st.
Proof.
  intros H Hne. destruct bytes as [|b bytes]; [contradiction|].
  cbn [fold_left]. unfold absorb at 2 4. rewrite flush_idem by assumption.
  reflexivity.
Qed.

(** Bytes that fit behind the ones in the buffer are copied there. *)
Lemma absorb_run (bytes : list Z) :
  forall st,
    0 <= buflen st ->
    buflen st + Z.of_nat (length bytes) <= 128 ->
    length (buf st) = 128%nat ->
    fold_left absorb bytes st
    = set_buflen (set_buf st (memcpy_at (buf st) (Z.to_nat (buflen st)) bytes))
                 (buflen st + Z.of_nat (length bytes)).
Proof.
  induction bytes as [|b bytes IH]; intros st H0 Hfit Hbuf.
  - cbn [fold_left length]. rewrite memcpy_at_nil, Z.add_0_r.
    destruct st; reflexivity.
  - cbn [fold_left]. cbn [length] in Hfit.
    assert (Ha : absorb st b
                 = set_buflen (set_buf st (upd (buf st) (Z.to_nat (buflen st)) b))
                              (buflen st + 1)).
    { unfold absorb. rewrite flush_small by lia. reflexivity. }
    rewrite Ha, IH.
    + unfold set_buflen, set_buf. cbn [h t f buf buflen outlen last_node].
      replace (Z.to_nat (buflen st + 1)) with (S (Z.to_nat (buflen st))) by lia.
      rewrite memcpy_at_upd by lia.
      f_equal. cbn [length]. lia.
    + cbn [set_buflen buflen]. lia.
    + cbn [set_buflen buflen]. lia.
    + cbn [set_buflen set_buf buf]. rewrite upd_length. assumption.
Qed.

(** *** States that agree up to the bytes beyond [buflen] *)

Lemma same_state_refl (st : blake2b_state) : same_state st st.
Proof. unfold same_state. repeat split. Qed.

Lemma same_state_sym (st1 st2 : blake2b_state) :
  same_state st1 st2 -> same_state st2 st1.
Proof.
  unfold same_state. intros (E1 & E2 & E3 & E4 & E5 & E6).
  repeat split; congruence.
Qed.

Lemma same_state_trans (st1 st2 st3 : blake2b_state) :
  same_state st1 st2 -> same_state st2 st3 -> same_state st1 st3.
Proof.
  unfold same_state.
  intros (E1 & E2 & E3 & E4 & E5 & E6) (F1 & F2 & F3 & F4 & F5 & F6).
  repeat split; congruence.
Qed.

Lemma same_state_full_buffer (st1 st2 : blake2b_state) :
  same_state st1 st2 -> state_ok st1 -> state_ok st2 -> buflen st1 = 128 ->
  buf st1 = buf st2.
Proof.
  intros (_ & _ & _ & E4 & _ & E6) [_ L1] [_ L2] Hb.
  rewrite <- E4, Hb in E6. change (Z.to_nat 128) with 128%nat in E6.
  rewrite !firstn_all2 in E6 by lia. exact E6.
Qed.

Lemma flush_same (st1 st2 : blake2b_state) :
  same_state st1 st2 -> state_ok st1 -> state_ok st2 ->
  same_state (flush st1) (flush st2).
Proof.
  intros Hs O1 O2. pose proof Hs as (E1 & E2 & E3 & E4 & E5 & E6).
  unfold flush. rewrite <- E4.
  destruct (buflen st1 =? 128) eqn:E; [|exact Hs].
  apply Z.eqb_eq in E.
  rewrite <- (same_state_full_buffer st1 st2 Hs O1 O2 E).
  destruct (block_step_congr st1 st2 (buf st1) E1 E2 E3) as [Ch Ct].
  destruct (block_step_fields st1 (buf st1)) as (A1 & A2 & A3 & A4 & _).
  destruct (block_step_fields st2 (buf st1)) as (B1 & B2 & B3 & B4 & _).
  unfold same_state. cbn [h t f buf buflen outlen set_buflen].
  repeat split; try congruence.
Qed.

Lemma absorb_same (st1 st2 : blake2b_state) (b : Z) :
  same_state st1 st2 -> state_ok st1 -> state_ok st2 ->
  same_state (absorb st1 b) (absorb st2 b).
Proof.
  intros Hs O1 O2.
  pose proof (flush_same st1 st2 Hs O1 O2) as (E1 & E2 & E3 & E4 & E5 & E6).
  destruct (flush_ok st1 O1) as [Hb1 Hl1].
  destruct (flush_ok st2 O2) as [Hb2 Hl2].
  unfold absorb, same_state. cbn [h t f buf buflen outlen set_buflen set_buf].
  repeat split; try congruence.
  rewrite <- E4.
  replace (Z.to_nat (buflen (flush st1) + 1))
    with (S (Z.to_nat (buflen (flush st1)))) by lia.
  rewrite !firstn_upd_succ by lia.
  rewrite E6, E4. reflexivity.
Qed.

Lemma fold_absorb_same (bytes : list Z) :
  forall st1 st2,
    same_state st1 st2 -> state_ok st1 -> state_ok st2 ->
    same_state (fold_left absorb bytes st1) (fold_left absorb bytes st2).
Proof.
  induction bytes as [|b bytes IH]; intros st1 st2 Hs O1 O2; cbn [fold_left].
  - exact Hs.
  - apply IH; [apply absorb_same; assumption|apply absorb_ok; assumption..].
Qed.

(** *** [blake2b_update] against byte-wise absorption *)

Lemma memcpy_at_whole (a blk : list Z) :
  length a = length blk -> memcpy_at a 0 blk = blk.
Proof.
  intros H. unfold memcpy_at. cbn [firstn app Nat.add].
  rewrite skipn_all2 by lia. apply app_nil_r.
Qed.

Lemma firstn_memcpy_at_0 (a src : list Z) :
  firstn (length src) (memcpy_at a 0 src) = src.
Proof.
  unfold memcpy_at. cbn [firstn app Nat.add].
  rewrite firstn_app, firstn_all, Nat.sub_diag, firstn_O. apply app_nil_r.
Qed.

(** The block loop, started on an empty buffer, followed by the copy of what
    is left, against absorbing the same bytes one by one. *)
Lemma update_blocks_absorb :
  forall fuel rest s1 s2,
    same_state s1 s2 -> state_ok s1 -> state_ok s2 -> buflen s1 = 0 ->
    (1 <= length rest <= fuel)%nat ->
    let s' := fst (update_blocks fuel s1 rest) in
    let r := snd (update_blocks fuel s1 rest) in
    same_state
      (set_buflen (set_buf s' (memcpy_at (buf s') (Z.to_nat (buflen s')) r))
                  (buflen s' + Z.of_nat (length r)))
      (fold_left absorb rest s2)
    /\ length (buf s') = 128%nat /\ buflen s' = 0
    /\ (1 <= length r <= 128)%nat.
Proof.
  cbv zeta.
  induction fuel as [|fuel IH]; intros rest s1 s2 Hs O1 O2 Hb Hlen; [lia|].
  pose proof Hs as (E1 & E2 & E3 & E4 & E5 & E6).
  destruct O1 as [_ L1]. pose proof O2 as [_ L2].
  cbn [update_blocks].
  destruct (128 <? Z.of_nat (length rest)) eqn:E.
  - apply Z.ltb_lt in E.
    set (blk := firstn 128 rest). set (rest' := skipn 128 rest).
    assert (Hblk : length blk = 128%nat) by (subst blk; rewrite length_firstn; lia).
    assert (Hrest' : (1 <= length rest' <= fuel)%nat)
      by (subst rest'; rewrite length_skipn; lia).
    set (s2a := set_buflen (set_buf s2 blk) 128).
    assert (Ha : fold_left absorb blk s2 = s2a).
    { rewrite absorb_run by (rewrite ?Hblk; lia).
      rewrite <- E4, Hb. change (Z.to_nat 0) with 0%nat.
      rewrite memcpy_at_whole by lia. rewrite Hblk. reflexivity. }
    assert (O2a : state_ok s2a) by (split; [cbn; lia|exact Hblk]).
    assert (Hfold : fold_left absorb rest s2
                    = fold_left absorb rest' (flush s2a)).
    { rewrite <- (firstn_skipn 128 rest) at 1. fold blk. fold rest'.
      rewrite fold_left_app, Ha. symmetry.
      apply fold_absorb_flush; [exact O2a|].
      intros Hn. rewrite Hn in Hrest'. cbn in Hrest'. lia. }
    rewrite Hfold.
    assert (Hflush : flush s2a
                     = set_buflen (blake2b_compress (add_counter s2a 128) blk) 0)
      by reflexivity.
    destruct (block_step_fields s1 blk) as (A1 & A2 & A3 & A4 & _).
    destruct (block_step_fields s2a blk) as (B1 & B2 & B3 & B4 & _).
    destruct (block_step_congr s1 s2a blk E1 E2 E3) as [Ch Ct].
    apply IH.
    + rewrite Hflush. unfold same_state.
      cbn [h t f buf buflen outlen set_buflen].
      rewrite A3, Hb. change (Z.to_nat 0) with 0%nat.
      repeat split; try congruence.
      * rewrite A1, B1. exact E3.
      * rewrite A4, B4. exact E5.
    + split; [rewrite A3; lia|rewrite A2; exact L1].
    + destruct (flush_ok s2a O2a) as [Fb Fl]. split; [lia|exact Fl].
    + rewrite A3. exact Hb.
    + exact Hrest'.
  - apply Z.ltb_ge in E. cbn [fst snd].
    split; [|split; [exact L1|split; [exact Hb|lia]]].
    rewrite absorb_run by (rewrite <- ?E4, ?Hb; lia).
    unfold same_state. cbn [h t f buf buflen outlen set_buflen set_buf].
    rewrite <- E4, Hb. change (Z.to_nat 0) with 0%nat.
    repeat split; try congruence.
    replace (Z.to_nat (0 + Z.of_nat (length rest))) with (length rest) by lia.
    rewrite !firstn_memcpy_at_0. reflexivity.
Qed.

(** [blake2b_update] leaves the state byte-wise absorption leaves, up to the
    unused part of the buffer. *)
Lemma blake2b_update_absorb (st : blake2b_state) (input : list Z) :
  state_ok st -> Z.of_nat (length input) < 2 ^ 63 ->
  same_state (blake2b_update st input) (fold_left absorb input st)
  /\ state_ok (blake2b_update st input).
Proof.
  intros [Hb Hl] Hsize. unfold blake2b_update.
  rewrite (wrap64_small (buflen st + Z.of_nat (length input))) by lia.
  destruct (128 <? buflen st + Z.of_nat (length input)) eqn:E.
  - apply Z.ltb_lt in E.
    rewrite !(wrap64_small (128 - buflen st)) by lia.
    set (fill := Z.to_nat (128 - buflen st)).
    set (rest := skipn fill input).
    assert (Hfill : length (firstn fill input) = fill)
      by (rewrite length_firstn; lia).
    assert (Hrest : (1 <= length rest)%nat)
      by (subst rest; rewrite length_skipn; lia).
    set (full := memcpy_at (buf st) (Z.to_nat (buflen st)) (firstn fill input)).
    assert (Lfull : length full = 128%nat)
      by (subst full; rewrite memcpy_at_length; lia).
    set (s1 := set_buflen
                 (blake2b_compress (add_counter (set_buf st full) 128)
                                   (buf (add_counter (set_buf st full) 128)))
                 0).
    set (s2a := set_buflen (set_buf st full) 128).
    assert (Ha : fold_left absorb (firstn fill input) st = s2a).
    { rewrite absorb_run by (rewrite ?Hfill; lia).
      fold full. rewrite Hfill. subst s2a. f_equal. lia. }
    assert (O2a : state_ok s2a) by (split; [cbn; lia|exact Lfull]).
    assert (Hfold : fold_left absorb input st = fold_left absorb rest (flush s2a)).
    { rewrite <- (firstn_skipn fill input) at 1. fold rest.
      rewrite fold_left_app, Ha. symmetry.
      apply fold_absorb_flush; [exact O2a|].
      intros Hn. rewrite Hn in Hrest. cbn in Hrest. lia. }
    assert (Hs1 : s1 = flush s2a).
    { subst s1 s2a. unfold flush. cbn [buflen set_buflen].
      change (128 =? 128) with true. cbv iota.
      destruct (add_counter_fields (set_buf st full) 128) as (_ & _ & -> & _).
      unfold blake2b_compress, add_counter, set_buflen, set_buf, set_h, set_t.
      cbn [h t f buf buflen outlen last_node].
      destruct (_ <? 128); reflexivity. }
    pose proof (flush_ok s2a O2a) as [Fb Fl].
    assert (Hb1 : buflen s1 = 0) by reflexivity.
    assert (O1 : state_ok s1) by (rewrite Hs1; split; [lia|exact Fl]).
    pose proof (update_blocks_absorb (length rest) rest s1 (flush s2a)) as HL.
    cbv zeta in HL.
    destruct HL as (Hsame & Lbuf & Hbl & Hr);
      [rewrite <- Hs1; apply same_state_refl|exact O1|
        split; [lia|exact Fl]|exact Hb1|lia|].
    destruct (update_blocks (length rest) s1 rest) as [s' r] eqn:Hu.
    cbn [fst snd] in Hsame, Lbuf, Hbl, Hr. cbv beta iota zeta.
    change (buflen (set_buf s' (memcpy_at (buf s') (Z.to_nat (buflen s')) r)))
      with (buflen s').
    replace (0 <? Z.of_nat (length r)) with true
      by (symmetry; apply Z.ltb_lt; lia).
    rewrite (wrap64_small (buflen s' + Z.of_nat (length r))) by lia.
    rewrite Hfold. split; [exact Hsame|].
    split; cbn [buflen buf set_buflen set_buf]; [lia|].
    rewrite memcpy_at_length; [exact Lbuf|]. rewrite Hbl. cbn. lia.
  - apply Z.ltb_ge in E.
    destruct (0 <? Z.of_nat (length input)) eqn:E0.
    + change (buflen (set_buf st (memcpy_at (buf st) (Z.to_nat (buflen st))
                                              input)))
        with (buflen st).
      rewrite wrap64_small by lia. rewrite absorb_run by lia.
      split; [apply same_state_refl|].
      split; cbn [buflen buf set_buflen set_buf]; [lia|].
      rewrite memcpy_at_length; lia.
    + apply Z.ltb_ge in E0. destruct input; [|cbn [length] in E0; lia].
      split; [apply same_state_refl|split; assumption].
Qed.

Lemma fold_update_absorb (pieces : list (list Z)) :
  forall st1 st2,
    same_state st1 st2 -> state_ok st1 -> state_ok st2 ->
    Z.of_nat (length (concat pieces)) < 2 ^ 63 ->
    same_state (fold_left blake2b_update pieces st1)
               (fold_left absorb (concat pieces) st2)
    /\ state_ok (fold_left blake2b_update pieces st1).
Proof.
  induction pieces as [|p pieces IH]; intros st1 st2 Hs O1 O2 Hsize;
    cbn [fold_left concat].
  - split; assumption.
  - cbn [concat] in Hsize. rewrite length_app in Hsize.
    destruct (blake2b_update_absorb st1 p O1 ltac:(lia)) as [Hu Ou].
    rewrite fold_left_app. apply IH.
    + eapply same_state_trans; [exact Hu|].
      apply fold_absorb_same; assumption.
    + exact Ou.
    + apply fold_absorb_ok, O2.
    + lia.
Qed.

(** The count, flag and compression at the end of [final_block]. *)
Lemma final_tail_congr (p1 p2 : blake2b_state) :
  h p1 = h p2 -> t p1 = t p2 -> f p1 = f p2 -> buflen p1 = buflen p2 ->
  buf p1 = buf p2 ->
  h (blake2b_compress
       (set_f (add_counter p1 (buflen p1))
              (upd (f (add_counter p1 (buflen p1))) 0 (wrap64 (-1))))
       (buf (set_f (add_counter p1 (buflen p1))
                   (upd (f (add_counter p1 (buflen p1))) 0 (wrap64 (-1))))))
  = h (blake2b_compress
         (set_f (add_counter p2 (buflen p2))
                (upd (f (add_counter p2 (buflen p2))) 0 (wrap64 (-1))))
         (buf (set_f (add_counter p2 (buflen p2))
                     (upd (f (add_counter p2 (buflen p2))) 0 (wrap64 (-1)))))).
Proof.
  intros E1 E2 E3 E4 E5.
  destruct (add_counter_fields p1 (buflen p1)) as (A1 & A2 & A3 & _).
  destruct (add_counter_fields p2 (buflen p2)) as (B1 & B2 & B3 & _).
  pose proof (add_counter_t_congr p1 p2 (buflen p1) E2) as Et.
  rewrite E4 in Et at 2.
  cbn [buf set_f]. rewrite A2, A3, B2, B3, E3, E5.
  apply compress_h_congr; cbn [h t f set_f]; congruence.
Qed.

Lemma final_block_h_same (st1 st2 : blake2b_state) :
  same_state st1 st2 -> state_ok st1 -> state_ok st2 ->
  h (final_block st1) = h (final_block st2).
Proof.
  intros Hs O1 O2. pose proof Hs as (E1 & E2 & E3 & E4 & E5 & E6).
  unfold final_block. cbv zeta. rewrite <- E4.
  destruct (buflen st1 <? 128) eqn:E128.
  - apply final_tail_congr; cbn [h t f buf buflen set_buf]; try assumption.
    rewrite <- E4 in E6. rewrite E6. reflexivity.
  - apply Z.ltb_ge in E128.
    apply final_tail_congr; try assumption.
    apply same_state_full_buffer; try assumption.
    destruct O1. lia.
Qed.

(** What is copied out only depends on the part of the state that
    [same_state] compares. *)
Lemma blake2b_final_same (st1 st2 : blake2b_state) (n : Z) :
  same_state st1 st2 -> state_ok st1 -> state_ok st2 ->
  option_map snd (blake2b_final st1 n) = option_map snd (blake2b_final st2 n).
Proof.
  intros Hs O1 O2. pose proof Hs as (E1 & E2 & E3 & E4 & E5 & E6).
  unfold blake2b_final. rewrite <- E5.
  destruct (negb (outlen st1 =? n)); [reflexivity|].
  cbn [option_map snd]. f_equal. rewrite <- E4.
  destruct (0 <? buflen st1).
  - unfold serialize.
    rewrite (final_block_h_same st1 st2 Hs O1 O2).
    replace (outlen (final_block st1)) with (outlen (final_block st2));
      [reflexivity|].
    unfold final_block. cbv zeta. rewrite <- E4.
    destruct (buflen st1 <? 128);
      repeat match goal with
             | |- context [outlen (blake2b_compress ?s ?b)] =>
                 let H := fresh in
                 destruct (compress_fields s b) as (_ & _ & _ & _ & H & _);
                 rewrite H; clear H
             | |- context [outlen (add_counter ?s ?n)] =>
                 let H := fresh in
                 destruct (add_counter_fields s n) as (_ & _ & _ & _ & H);
                 rewrite H; clear H
             | |- _ => progress cbn [outlen set_f set_buf]
             end; congruence.
  - unfold serialize. rewrite E1, E5. reflexivity.
Qed.

Lemma blake2b_init_ok (n : Z) (st : blake2b_state) :
  blake2b_init n = Some st ->
  state_ok st /\ outlen st = n /\ h st = blake2b_IV
  /\ t st = [0; 0] /\ buflen st = 0.
Proof.
  unfold blake2b_init.
  destruct ((n =? 0) || (64 <? n)); [discriminate|].
  intros H. injection H as <-. unfold state_ok. cbn [buflen buf outlen h t].
  repeat split; lia.
Qed.

Lemma blake2b_init_some (n : Z) :
  1 <= n <= 64 -> exists st, blake2b_init n = Some st.
Proof.
  intros H. unfold blake2b_init.
  replace (n =? 0) with false by (symmetry; apply Z.eqb_neq; lia).
  replace (64 <? n) with false by (symmetry; apply Z.ltb_ge; lia).
  eexists. reflexivity.
Qed.

Lemma absorb_outlen_h (st : blake2b_state) (b : Z) :
  outlen (absorb st b) = outlen st
  /\ (length (h st) = 8%nat -> length (h (absorb st b)) = 8%nat).
Proof.
  unfold absorb, flush. destruct (buflen st =? 128).
  - cbn [outlen h set_buflen set_buf].
    destruct (block_step_fields st (buf st)) as (_ & _ & _ & -> & Hh).
    split; [reflexivity|intros _; exact Hh].
  - cbn [outlen h set_buflen set_buf]. split; [reflexivity|auto].
Qed.

Lemma fold_absorb_outlen_h (bytes : list Z) :
  forall st,
    outlen (fold_left absorb bytes st) = outlen st
    /\ (length (h st) = 8%nat ->
        length (h (fold_left absorb bytes st)) = 8%nat).
Proof.
  induction bytes as [|b bytes IH]; intros st; cbn [fold_left].
  - split; auto.
  - destruct (IH (absorb st b)) as [I1 I2].
    destruct (absorb_outlen_h st b) as [A1 A2].
    split; [congruence|auto].
Qed.

Lemma flat_map_store64_length (l : list Z) :
  length (flat_map store64 l) = (8 * length l)%nat.
Proof.
  induction l as [|w l IH]; [reflexivity|].
  cbn [flat_map length]. rewrite length_app, IH.
  unfold store64. rewrite length_map, length_seq. lia.
Qed.

Lemma final_block_outlen_h (st : blake2b_state) :
  outlen (final_block st) = outlen st /\ length (h (final_block st)) = 8%nat.
Proof.
  unfold final_block. cbv zeta.
  match goal with
  | |- outlen (blake2b_compress ?s ?b) = _ /\ _ =>
      destruct (compress_fields s b) as (_ & _ & _ & _ & Ho & Hh)
  end.
  split; [|exact Hh]. rewrite Ho. cbn [outlen set_f].
  match goal with
  | |- outlen (add_counter ?s ?n) = _ =>
      destruct (add_counter_fields s n) as (_ & _ & _ & _ & ->)
  end.
  destruct (buflen st <? 128); reflexivity.
Qed.

(** The state after [blake2b_init] and any number of updates. *)
Lemma fold_update_from_init (n : Z) (st0 : blake2b_state)
      (pieces : list (list Z)) :
  blake2b_init n = Some st0 ->
  Z.of_nat (length (concat pieces)) < 2 ^ 63 ->
  let st := fold_left blake2b_update pieces st0 in
  same_state st (fold_left absorb (concat pieces) st0)
  /\ state_ok st /\ outlen st = n /\ length (h st) = 8%nat.
Proof.
  intros Hinit Hsize. cbv zeta.
  destruct (blake2b_init_ok n st0 Hinit) as (O0 & Ho & Hh & _).
  destruct (fold_update_absorb pieces st0 st0 (same_state_refl st0) O0 O0 Hsize)
    as [Hs Ok].
  destruct (fold_absorb_outlen_h (concat pieces) st0) as [F1 F2].
  pose proof Hs as (E1 & _ & _ & _ & E5 & _).
  split; [exact Hs|]. split; [exact Ok|].
  split; [congruence|].
  rewrite E1. apply F2. rewrite Hh. reflexivity.
Qed.

(** *** The properties *)

(** X25.  However an input (shorter than 2^63 bytes) is cut into pieces for
    successive [blake2b_update] calls, [blake2b_final] copies out the same
    bytes as after a single call with the whole input. *)
Theorem blake2b_streaming_invariance (n : Z) (pieces : list (list Z)) :
  Z.of_nat (length (concat pieces)) < 2 ^ 63 ->
  blake2b_pieces n pieces = blake2b_pieces n [concat pieces].
Proof.
  intros Hsize. unfold blake2b_pieces.
  destruct (blake2b_init n) as [st0|] eqn:Hinit; [|reflexivity].
  destruct (fold_update_from_init n st0 pieces Hinit Hsize) as (S1 & O1 & _).
  destruct (fold_update_from_init n st0 [concat pieces] Hinit) as (S2 & O2 & _).
  { cbn [concat]. rewrite app_nil_r. exact Hsize. }
  cbn [concat] in S2. rewrite app_nil_r in S2.
  apply blake2b_final_same; [|exact O1|exact O2].
  eapply same_state_trans; [exact S1|apply same_state_sym; exact S2].
Qed.

Lemma blake2b_streaming_invariance_witness :
  blake2b_pieces 64 [repeat 7 100; []; repeat 9 200; [1; 2; 3]]
  = blake2b_pieces 64 [concat [repeat 7 100; []; repeat 9 200; [1; 2; 3]]].
Proof.
  apply blake2b_streaming_invariance. vm_compute. reflexivity.
Defined.

(** X26.  After [blake2b_init] with a length [n] between 1 and 64 and any
    updates, [blake2b_final] with the same [n] succeeds and copies out exactly
    [n] bytes. *)
Theorem blake2b_digest_length (n : Z) (pieces : list (list Z)) :
  1 <= n <= 64 ->
  Z.of_nat (length (concat pieces)) < 2 ^ 63 ->
  exists out,
    blake2b_pieces n pieces = Some out /\ Z.of_nat (length out) = n.
Proof.
  intros Hn Hsize. unfold blake2b_pieces.
  destruct (blake2b_init_some n Hn) as [st0 Hinit]. rewrite Hinit.
  destruct (fold_update_from_init n st0 pieces Hinit Hsize)
    as (_ & _ & Ho & Hh).
  set (st := fold_left blake2b_update pieces st0) in *.
  unfold blake2b_final. rewrite Ho, Z.eqb_refl. cbn [negb option_map snd].
  eexists. split; [reflexivity|].
  unfold serialize.
  assert (H : forall s, outlen s = n -> length (h s) = 8%nat ->
              Z.of_nat (length (firstn (Z.to_nat (outlen s))
                                       (flat_map store64 (firstn 8 (h s))))) = n).
  { intros s Hos Hhs. rewrite length_firstn, flat_map_store64_length.
    rewrite length_firstn, Hhs, Hos. lia. }
  destruct (0 <? buflen st).
  - destruct (final_block_outlen_h st) as [F1 F2]. apply H; congruence.
  - apply H; assumption.
Qed.

Lemma blake2b_digest_length_witness :
  exists out,
    blake2b_pieces 32 [[1; 2; 3]; repeat 5 130] = Some out
    /\ Z.of_nat (length out) = 32.
Proof.
  apply blake2b_digest_length; [lia|vm_compute; reflexivity].
Defined.

(** X27.  [blake2b_init] refuses the lengths 0 and above 64, and only those;
    [blake2b_final] refuses every length other than the one given to
    [blake2b_init], whatever was fed in between. *)
Theorem blake2b_length_errors :
  (forall n, 0 <= n -> (blake2b_init n = None <-> n = 0 \/ 64 < n))
  /\ (forall n m st pieces,
        blake2b_init n = Some st ->
        Z.of_nat (length (concat pieces)) < 2 ^ 63 ->
        m <> n ->
        blake2b_final (fold_left blake2b_update pieces st) m = None).
Proof.
  split.
  - intros n Hn. unfold blake2b_init.
    destruct (n =? 0) eqn:E1; [apply Z.eqb_eq in E1|apply Z.eqb_neq in E1];
      destruct (64 <? n) eqn:E2;
      [apply Z.ltb_lt in E2|apply Z.ltb_ge in E2
       |apply Z.ltb_lt in E2|apply Z.ltb_ge in E2];
      cbn [orb]; split; intros H; try reflexivity; try discriminate;
      try (left; assumption); try (right; assumption).
    destruct H; lia.
  - intros n m st pieces Hinit Hsize Hm.
    destruct (fold_update_from_init n st pieces Hinit Hsize) as (_ & _ & Ho & _).
    unfold blake2b_final. rewrite Ho.
    replace (n =? m) with false by (symmetry; apply Z.eqb_neq; lia).
    reflexivity.
Qed.

Lemma blake2b_length_errors_witness :
  (blake2b_init 65 = None <-> 65 = 0 \/ 64 < 65)
  /\ exists st,
       blake2b_init 64 = Some st
       /\ blake2b_final (fold_left blake2b_update [[1; 2]] st) 32 = None.
Proof.
  split.
  - apply (proj1 blake2b_length_errors). lia.
  - eexists. split; [reflexivity|].
    apply (proj2 blake2b_length_errors 64 32 _ [[1; 2]]);
      [reflexivity|vm_compute; reflexivity|lia].
Defined.

(** Byte-wise absorption counts compressed bytes in [t[0]]. *)
Lemma absorb_counter (st : blake2b_state) (b : Z) (fed : Z) :
  state_ok st ->
  (exists T, t st = [T; 0] /\ 0 <= T /\ T mod 128 = 0 /\ T + buflen st = fed) ->
  fed + 1 < 2 ^ 63 ->
  exists T, t (absorb st b) = [T; 0] /\ 0 <= T /\ T mod 128 = 0
            /\ T + buflen (absorb st b) = fed + 1.
Proof.
  intros [Hb Hl] (T & Ht & HT & Hm & Hsum) Hsize.
  unfold absorb, flush. destruct (buflen st =? 128) eqn:E.
  - apply Z.eqb_eq in E. exists (T + 128).
    cbn [t buflen set_buflen set_buf].
    destruct (compress_fields (add_counter st 128) (buf st)) as (-> & _).
    unfold add_counter. cbn [t set_t]. rewrite Ht. cbn [get nth upd].
    rewrite wrap64_small by lia.
    replace (T + 128 <? 128) with false by (symmetry; apply Z.ltb_ge; lia).
    cbn [t set_t].
    split; [reflexivity|]. split; [lia|]. split; [|lia].
    replace (T + 128) with (T + 1 * 128) by lia.
    rewrite Z.mod_add by lia. exact Hm.
  - apply Z.eqb_neq in E. exists T. cbn [t buflen set_buflen set_buf].
    repeat split; try assumption; lia.
Qed.

Lemma fold_absorb_counter (bytes : list Z) :
  forall st fed,
    state_ok st ->
    (exists T, t st = [T; 0] /\ 0 <= T /\ T mod 128 = 0
               /\ T + buflen st = fed) ->
    fed + Z.of_nat (length bytes) < 2 ^ 63 ->
    exists T, t (fold_left absorb bytes st) = [T; 0] /\ 0 <= T
              /\ T mod 128 = 0
              /\ T + buflen (fold_left absorb bytes st)
                 = fed + Z.of_nat (length bytes).
Proof.
  induction bytes as [|b bytes IH]; intros st fed Hok HT Hsize;
    cbn [fold_left length] in *.
  - destruct HT as (T & H1 & H2 & H3 & H4). exists T.
    repeat split; try assumption; lia.
  - destruct (IH (absorb st b) (fed + 1)) as (T & H1 & H2 & H3 & H4).
    + apply absorb_ok, Hok.
    + apply absorb_counter; [assumption..|lia].
    + lia.
    + exists T. repeat split; try assumption; lia.
Qed.

(** X28.  After [blake2b_init] and updates with [fed] bytes in all (fewer
    than 2^63), the low counter word holds the bytes already compressed, a
    multiple of 128, the high word is 0, and counter plus buffer fill is
    [fed]: no byte is lost or counted twice. *)
Theorem blake2b_counter_conservation
        (n : Z) (st0 : blake2b_state) (pieces : list (list Z)) :
  blake2b_init n = Some st0 ->
  Z.of_nat (length (concat pieces)) < 2 ^ 63 ->
  let st := fold_left blake2b_update pieces st0 in
  get (t st) 0 + buflen st = Z.of_nat (length (concat pieces))
  /\ get (t st) 0 mod 128 = 0 /\ get (t st) 1 = 0
  /\ 0 <= buflen st <= 128.
Proof.
  intros Hinit Hsize. cbv zeta.
  destruct (fold_update_from_init n st0 pieces Hinit Hsize)
    as ((_ & E2 & _ & E4 & _) & [Hb _] & _).
  destruct (blake2b_init_ok n st0 Hinit) as (O0 & _ & _ & Ht0 & Hb0).
  destruct (fold_absorb_counter (concat pieces) st0 0 O0) as (T & H1 & H2 & H3 & H4).
  - exists 0. rewrite Ht0, Hb0. repeat split; lia.
  - lia.
  - rewrite E2, E4, H1. cbn [get nth]. repeat split; try assumption; lia.
Qed.

Lemma blake2b_counter_conservation_witness :
  exists st0,
    blake2b_init 64 = Some st0
    /\ get (t (fold_left blake2b_update [repeat 1 200; repeat 2 100] st0)) 0
       + buflen (fold_left blake2b_update [repeat 1 200; repeat 2 100] st0)
       = 300.
Proof.
  eexists. split; [reflexivity|].
  apply (blake2b_counter_conservation 64 _ [repeat 1 200; repeat 2 100]);
    [reflexivity|vm_compute; reflexivity].
Defined.

(** X29.  Once input has been fed, [blake2b_update] leaves between 1 and 128
    bytes in the 128-byte buffer: the last block always waits for
    [blake2b_final], which then pads it, sets the finalization flag and
    compresses it. *)
Theorem blake2b_update_keeps_last_block
        (st : blake2b_state) (input : list Z) :
  state_ok st -> input <> [] -> Z.of_nat (length input) < 2 ^ 63 ->
  0 < buflen (blake2b_update st input) <= 128
  /\ length (buf (blake2b_update st input)) = 128%nat
  /\ blake2b_final (blake2b_update st input) (outlen (blake2b_update st input))
     = Some (final_block (blake2b_update st input),
             serialize (final_block (blake2b_update st input))).
Proof.
  intros Hok Hne Hsize. pose proof Hok as [Hb _].
  pose proof (Blake2bFacts.blake2b_update_buflen st input Hb Hne Hsize) as H.
  destruct (blake2b_update_absorb st input Hok Hsize) as [_ [_ Hl]].
  split; [exact H|]. split; [exact Hl|].
  apply Blake2bFacts.blake2b_final_buffered. lia.
Qed.

Lemma blake2b_update_keeps_last_block_witness :
  exists st0,
    blake2b_init 64 = Some st0
    /\ 0 < buflen (blake2b_update st0 (repeat 3 256)) <= 128.
Proof.
  eexists. split; [reflexivity|].
  apply blake2b_update_keeps_last_block.
  - split; [cbn; lia|reflexivity].
  - discriminate.
  - vm_compute. reflexivity.
Defined.

(** X30.  [hash] never returns NULL when its allocation succeeds, and its
    text is 128 lowercase hexadecimal characters. *)
Theorem hash_text_shape (input : list Z) :
  Z.of_nat (length input) < 2 ^ 63 ->
  exists text,
    hash input true = Some text
    /\ String.length text = 128%nat
    /\ Forall (fun c => In c CoreMore.hex_alphabet)
              (String.list_ascii_of_string text).
Proof.
  intros Hsize. unfold hash. cbn [negb].
  destruct (blake2b_init 64) as [st0|] eqn:Hinit; [|discriminate].
  destruct (fold_update_from_init 64 st0 [input] Hinit) as (_ & _ & Ho & _).
  { cbn [concat]. rewrite app_nil_r. exact Hsize. }
  cbn [fold_left] in Ho.
  unfold blake2b_final. rewrite Ho. cbn [Z.eqb Pos.eqb negb].
  eexists. split; [reflexivity|].
  destruct (CoreExtra.hex_text_shape
              (get (serialize
                      (if 0 <? buflen (blake2b_update st0 input)
                       then final_block (blake2b_update st0 input)
                       else blake2b_update st0 input)))
              (seq 0 64)) as [H1 H2].
  rewrite CoreExtra.string_of_list_ascii_length,
          String.list_ascii_of_string_of_list_ascii.
  split; [exact H1|exact H2].
Qed.

Lemma hash_text_shape_witness :
  exists text,
    hash Reference.abc true = Some text /\ String.length text = 128%nat.
Proof.
  destruct (hash_text_shape Reference.abc) as (text & A & B & _);
    [vm_compute; reflexivity|].
  exists text. split; [exact A|exact B].
Defined.

End Blake2bExtra.
